(** * Earthquake ripple visualizer: the ripple lifecycle engine of script.js

    The development embeds the core of [script.js]: the looping map offset
    ([normalizeOffset]), the two wrap-around projections used by the drawing
    code and by the click handler, [createRippleFromWorld], the auto-ripple
    throttle [maybeSpawnAutoRipple], the frame [drawFrame] with its ripple
    loop, the pointer handlers, the feed, the tooltip placement and
    [hexToRgba].

    Numbers.  The main embedding models a JavaScript number by an exact
    rational ([Q]): its sums, differences, products and quotients are not
    rounded, and the infinities, NaN and the sign of zero are not numbers of
    it.  A statement proved on it is stated so that it also holds of the
    binary64 numbers of the code: orders and ranges that rounding to nearest
    keeps, equalities between expressions the code itself evaluates, and
    identities on [Whole] numbers (integers of magnitude up to 2^52, on which
    binary64 adds and subtracts exactly).  The operations that can leave the
    finite numbers, [%] and [/] with a divisor that is not a literal, are
    partial.

    Where binary64 rounding decides a property, the module [B64] embeds the
    same functions on the kernel's binary64 numbers; it is used to run the
    code on the inputs on which the exact model and the code part.

    Exceptions.  The canvas refuses a negative radius ([arc] and
    [createRadialGradient] throw) and a string that is no colour
    ([addColorStop] throws).  A call that throws is [Threw], with the state
    it leaves behind; a call that returns is [Returned]. *)

From Stdlib Require Import QArith Qround Qminmax Lqa Lia ZArith String.
From Stdlib Require Import DecimalString Ascii PrimFloat.
From stdpp Require Import base option list.

Set Warnings "-inexact-float".

Local Open Scope Q_scope.

(** ** JavaScript numbers *)

Module Num.

(** [a < b], [a <= b], [a > b], [a >= b] as the tests of the source. *)
Definition ltb (a b : Q) : bool := if Qlt_le_dec a b then true else false.
Definition leb (a b : Q) : bool := if Qlt_le_dec b a then false else true.
Definition gtb (a b : Q) : bool := ltb b a.
Definition geb (a b : Q) : bool := leb b a.

(** [Math.trunc]: the integer part, rounded toward zero. *)
Definition trunc (q : Q) : Z := Z.quot (Qnum q) (Zpos (Qden q)).

(** [n % d]: the remainder of the truncating division; its sign is the sign
    of the dividend.  NaN (zero divisor) is [None]. *)
Definition rem (n d : Q) : option Q :=
  if Qeq_bool d 0 then None else Some (n - d * inject_Z (trunc (n / d))).

(** [n / d] with a divisor that is not a literal. *)
Definition div (n d : Q) : option Q :=
  if Qeq_bool d 0 then None else Some (n / d).

(** [Math.max(a, b)] and [Math.min(a, b)]. *)
Definition max (a b : Q) : Q := Qmax a b.
Definition min (a b : Q) : Q := Qmin a b.

End Num.

(** ** Data model *)

(** An element of [ripples] (script.js line 93). *)
Record Ripple := mkRipple {
  baseX : Q;
  baseY : Q;
  radius : Q;
  maxRadius : Q;
  speed : Q;
  lineWidth : Q;
  baseColor : string;
  opacity : Q;
  fromAuto : bool
}.

(** An element of [recentQuakes] (lines 148-159); only the fields the engine
    reads. *)
Record Quake := mkQuake {
  q_baseX : Q;
  q_baseY : Q;
  q_mag : Q;
  q_depth : Q
}.

(** What the handlers read from the page and never write: the canvas size,
    the two checkboxes, the parsed slider values, the feed. *)
Record Page := mkPage {
  canvas_width : Q;
  canvas_height : Q;
  showQuakesChecked : bool;
  autoRipplesChecked : bool;
  magSlider : Q;
  depthSlider : Q;
  speedSlider : Q;
  recentQuakes : list Quake
}.

(** The module-level variables the engine writes. *)
Record State := mkState {
  mapOffsetX : Q;
  isDragging : bool;
  ripples : list Ripple;
  autoRippleIndex : nat;
  lastAutoRippleTime : Q
}.

Definition initialState : State :=
  {| mapOffsetX := 0; isDragging := false; ripples := [];
     autoRippleIndex := 0; lastAutoRippleTime := 0 |}.

(** ** Horizontal rotation (lines 63-66) *)

Definition normalizeOffset (w offsetX : Q) : option Q :=
  m ← Num.rem offsetX w;
  Num.rem (m + w) w.

(** Base to screen, as the marker and ripple drawing code does it
    (lines 321-322 and 347-348). *)
Definition toScreen (baseX offset w : Q) : Q :=
  let screenX := baseX + offset in
  if Num.gtb screenX w then screenX - w else screenX.

(** Screen to base, as the click handler does it (lines 182-183). *)
Definition toBase (screenX offset w : Q) : Q :=
  let baseX := screenX - offset in
  if Num.ltb baseX 0 then baseX + w else baseX.

(** ** Spawning (lines 94-131) *)

Definition createRippleFromWorld
    (baseX baseY magnitude depth speedMultiplier : Q) (fromAuto : bool)
    (ripples : list Ripple) : list Ripple :=
  let mag := Num.max 3 (Num.min 9 magnitude) in
  let depthKm := Num.max 0 (Num.min 700 depth) in
  let magFactor := (mag - 3) / 6 in
  let depthFactor := 1 - depthKm / 700 in
  let baseMaxRadius := 80 in
  let extraRadius := 220 in
  let maxRadius :=
    baseMaxRadius + extraRadius * magFactor * (0.4 + 0.6 * depthFactor) in
  let baseSpeed := 1.1 in
  let rippleSpeed := baseSpeed * speedMultiplier * (0.6 + 0.8 * magFactor) in
  let lineWidth := 2 + 3 * magFactor in
  let color := if fromAuto then "#4ade80"%string else "#22d3ee"%string in
  ripples ++ [mkRipple baseX baseY 0 maxRadius rippleSpeed lineWidth color 1
                       fromAuto].

(** The click handler (lines 171-190); [screenX], [screenY] are the pointer
    position already scaled to canvas coordinates. *)
Definition onClick (pg : Page) (screenX screenY : Q) (st : State)
  : option State :=
  if isDragging st then Some st
  else
    offset ← normalizeOffset (canvas_width pg) (mapOffsetX st);
    let baseX := toBase screenX offset (canvas_width pg) in
    Some {| mapOffsetX := mapOffsetX st;
            isDragging := isDragging st;
            ripples := createRippleFromWorld baseX screenY (magSlider pg)
                         (depthSlider pg) (speedSlider pg) false (ripples st);
            autoRippleIndex := autoRippleIndex st;
            lastAutoRippleTime := lastAutoRippleTime st |}.

(** ** Auto-ripple throttle (lines 261-282) *)

Definition AUTO_RIPPLE_INTERVAL : Q := 2000.

Definition maybeSpawnAutoRipple (pg : Page) (timestamp : Q) (st : State)
  : option State :=
  if negb (autoRipplesChecked pg) || (length (recentQuakes pg) =? 0)%nat
  then Some st
  else if Num.ltb (timestamp - lastAutoRippleTime st) AUTO_RIPPLE_INTERVAL
  then Some st
  else
    quake ← recentQuakes pg
              !! (autoRippleIndex st mod length (recentQuakes pg))%nat;
    let speedMult := speedSlider pg in
    Some {| mapOffsetX := mapOffsetX st;
            isDragging := isDragging st;
            ripples := createRippleFromWorld (q_baseX quake) (q_baseY quake)
                         (q_mag quake) (q_depth quake) speedMult true
                         (ripples st);
            autoRippleIndex := autoRippleIndex st + 1;
            lastAutoRippleTime := timestamp |}.

(** ** Colours (lines 285-291) *)

(** Strings are sequences of code units below 256. *)

(** The value of a digit in radix 16, if the character is one. *)
Definition hexDigit (c : ascii) : option Z :=
  let n := Z.of_nat (nat_of_ascii c) in
  if (48 <=? n)%Z && (n <=? 57)%Z then Some (n - 48)%Z
  else if (97 <=? n)%Z && (n <=? 102)%Z then Some (n - 87)%Z
  else if (65 <=? n)%Z && (n <=? 70)%Z then Some (n - 55)%Z
  else None.

(** The white space and line terminators [parseInt] skips (tab, line feed,
    vertical tab, form feed, carriage return, space, no-break space). *)
Definition isWhiteSpace (c : ascii) : bool :=
  let n := nat_of_ascii c in
  existsb (Nat.eqb n) [9; 10; 11; 12; 13; 32; 160]%nat.

Fixpoint trimStart (s : string) : string :=
  match s with
  | String c s' => if isWhiteSpace c then trimStart s' else s
  | EmptyString => EmptyString
  end.

(** The value of the longest prefix of digits of radix 16, read from the
    left with the value [acc] of the digits already read; [None] when there
    is no digit at all. *)
Fixpoint hexPrefix (acc : option Z) (s : string) : option Z :=
  match s with
  | String c s' =>
      match hexDigit c with
      | Some d => hexPrefix (Some (16 * default 0%Z acc + d)%Z) s'
      | None => acc
      end
  | EmptyString => acc
  end.

(** [parseInt(s, 16)]; NaN is [None]. *)
Definition parseInt16 (s : string) : option Z :=
  let s := trimStart s in
  let '(sign, s) :=
    match s with
    | String "-" s' => ((-1)%Z, s')
    | String "+" s' => (1%Z, s')
    | _ => (1%Z, s)
    end in
  let s :=
    match s with
    | String "0" (String "x" s') => s'
    | String "0" (String "X" s') => s'
    | _ => s
    end in
  n ← hexPrefix None s;
  Some (sign * n)%Z.

(** [hex.replace("#", "")]: the first ["#"] is removed. *)
Fixpoint removeFirstHash (s : string) : string :=
  match s with
  | String c s' => if Ascii.eqb c "#" then s' else String c (removeFirstHash s')
  | EmptyString => EmptyString
  end.

(** [h.slice(a, b)] for [0 <= a <= b]. *)
Definition slice (a b : nat) (s : string) : string := substring a (b - a) s.

(** The four values [hexToRgba] puts into its [rgba(r,g,b,alpha)] string. *)
Record Rgba := mkRgba {
  red : option Z;
  green : option Z;
  blue : option Z;
  alphaOf : Q
}.

Definition hexToRgba (hex : string) (alpha : Q) : Rgba :=
  let h := removeFirstHash hex in
  let r := parseInt16 (slice 0 2 h) in
  let g := parseInt16 (slice 2 4 h) in
  let b := parseInt16 (slice 4 6 h) in
  mkRgba r g b alpha.

(** The lower-case digit of a value below 16, and the two digits of a value
    below 256. *)
Definition hexChar (d : nat) : ascii :=
  ascii_of_nat (if (d <? 10)%nat then 48 + d else 87 + d).

Definition hex2 (n : nat) : string :=
  String (hexChar (n / 16)) (String (hexChar (n mod 16)) EmptyString).

(** The string [hexToRgba] builds is a colour for the canvas when none of
    its channels is NaN. *)
Definition isColor (c : Rgba) : bool :=
  match red c, green c, blue c with
  | Some _, Some _, Some _ => true
  | _, _, _ => false
  end.

(** ** Animation loop (lines 293-369) *)

(** What a call comes to: it returns; or an exception leaves it, the state
    being as the exception found it; or a number has left the finite numbers,
    which the embedding does not follow. *)
Inductive Run (A : Type) : Type :=
| Returned (a : A)
| Threw (a : A)
| NotFinite.

Arguments Returned {A} a.
Arguments Threw {A} a.
Arguments NotFinite {A}.

(** The drawing calls that depend on the engine's state: a marker
    ([arc] + [fill]) and a ring ([arc] + [stroke] with the radial gradient
    from [0.7 * radius] to [radius], the outer stop at alpha [opacity]). *)
Inductive Draw :=
| Marker (x y r : Q)
| Ring (x y inner outer width alpha : Q) (color : string).

(** Lines 338-340: the ripple grows, its opacity is recomputed. *)
Definition age (r : Ripple) : option Ripple :=
  let radius' := radius r + speed r in
  t ← Num.div radius' (maxRadius r);
  Some (mkRipple (baseX r) (baseY r) radius' (maxRadius r) (speed r)
                 (lineWidth r) (baseColor r) (1 - t) (fromAuto r)).

(** Line 342: the test that splices the ripple out. *)
Definition expired (r : Ripple) : bool :=
  Num.geb (radius r) (maxRadius r) || Num.leb (opacity r) 0.

(** Lines 351-361: [createRadialGradient] throws when one of its two radii,
    [r.radius * 0.7] and [r.radius], is negative, and [addColorStop] when
    the string [hexToRgba] has built is not a colour. *)
Definition ringThrows (r : Ripple) : bool :=
  Num.ltb (radius r * 0.7) 0 || Num.ltb (radius r) 0
  || negb (isColor (hexToRgba (baseColor r) (opacity r))).

(** Lines 347-367. *)
Definition drawRipple (w offset : Q) (r : Ripple) : Draw :=
  let screenX := toScreen (baseX r) offset w in
  let screenY := baseY r in
  Ring screenX screenY (radius r * 0.7) (radius r) (lineWidth r) (opacity r)
       (baseColor r).

(** Line 326: [arc] throws when the radius [2 + mag] of the marker is
    negative. *)
Definition markerThrows (quake : Quake) : bool :=
  Num.ltb (2 + q_mag quake) 0.

(** Lines 317-329.  On a number [quake.mag || 0] is [quake.mag] (it differs
    only on [null] and NaN, which are not numbers of the model). *)
Definition drawMarker (w offset : Q) (quake : Quake) : Draw :=
  let mag := q_mag quake in
  let radius := 2 + mag in
  Marker (toScreen (q_baseX quake) offset w) (q_baseY quake) radius.

(** The loop over the feed of lines 317-329, [draws] being the calls made so
    far. *)
Fixpoint drawMarkers (w offset : Q) (quakes : list Quake) (draws : list Draw)
  : Run (list Draw) :=
  match quakes with
  | [] => Returned draws
  | quake :: quakes' =>
      if markerThrows quake then Threw draws
      else drawMarkers w offset quakes' (draws ++ [drawMarker w offset quake])
  end.

(** The state of the [for] loop of lines 336-368: the array, the drawing
    calls made so far and, as a ghost log, every read [ripples[i]] with the
    element it returned. *)
Record Pass := mkPass {
  p_ripples : list Ripple;
  p_draws : list Draw;
  p_reads : list (nat * Ripple)
}.

(** [rippleLoop w offset n p] runs the iterations [i = n-1, ..., 0].  A read
    past the end of the array yields [undefined], whose field access throws.
    The ripple read is aged in place; if it is not spliced out, its ring is
    drawn, and a ring the canvas refuses ends the loop, the aged ripple
    staying where it is and the lower indices unread. *)
Fixpoint rippleLoop (w offset : Q) (n : nat) (p : Pass) : Run Pass :=
  match n with
  | O => Returned p
  | S i =>
      match p_ripples p !! i with
      | None => Threw p
      | Some r =>
          match age r with
          | None => NotFinite
          | Some r' =>
              if expired r'
              then rippleLoop w offset i
                     (mkPass (delete i (p_ripples p)) (p_draws p)
                             (p_reads p ++ [(i, r)]))
              else if ringThrows r'
              then Threw (mkPass (<[i := r']> (p_ripples p)) (p_draws p)
                                 (p_reads p ++ [(i, r)]))
              else rippleLoop w offset i
                     (mkPass (<[i := r']> (p_ripples p))
                             (p_draws p ++ [drawRipple w offset r'])
                             (p_reads p ++ [(i, r)]))
          end
      end
  end.

(** A completed pass of the ripple loop, on the array alone. *)
Definition advanceAndPrune (w offset : Q) (rs : list Ripple) : option Pass :=
  match rippleLoop w offset (length rs) (mkPass rs [] []) with
  | Returned p => Some p
  | Threw _ | NotFinite => None
  end.

(** What one call of [drawFrame] leaves behind. *)
Record Frame := mkFrame {
  f_state : State;
  f_draws : list Draw;
  f_reads : list (nat * Ripple)
}.

(** [st] with the array of ripples as the loop left it. *)
Definition withRipples (st : State) (rs : list Ripple) : State :=
  {| mapOffsetX := mapOffsetX st;
     isDragging := isDragging st;
     ripples := rs;
     autoRippleIndex := autoRippleIndex st;
     lastAutoRippleTime := lastAutoRippleTime st |}.

(** One call of [drawFrame(timestamp)]: the markers, the throttle, the
    ripple loop. *)
Definition drawFrameRun (pg : Page) (timestamp : Q) (st : State)
  : Run Frame :=
  match normalizeOffset (canvas_width pg) (mapOffsetX st) with
  | None => NotFinite
  | Some offset =>
      match (if showQuakesChecked pg
             then drawMarkers (canvas_width pg) offset (recentQuakes pg) []
             else Returned []) with
      | NotFinite => NotFinite
      | Threw draws => Threw (mkFrame st draws [])
      | Returned markers =>
          match maybeSpawnAutoRipple pg timestamp st with
          | None => Threw (mkFrame st markers [])
          | Some st1 =>
              match rippleLoop (canvas_width pg) offset
                      (length (ripples st1))
                      (mkPass (ripples st1) markers []) with
              | Returned p =>
                  Returned (mkFrame (withRipples st1 (p_ripples p))
                                    (p_draws p) (p_reads p))
              | Threw p =>
                  Threw (mkFrame (withRipples st1 (p_ripples p))
                                 (p_draws p) (p_reads p))
              | NotFinite => NotFinite
              end
          end
      end
  end.

(** A frame that returns. *)
Definition drawFrame (pg : Page) (timestamp : Q) (st : State)
  : option Frame :=
  match drawFrameRun pg timestamp st with
  | Returned f => Some f
  | Threw _ | NotFinite => None
  end.

(** ** Specification-side definitions *)

(** One frame of ageing as the specification words it:
    [radius := radius + growthRate], [opacity := 1 - radius / maxRadius]. *)
Definition aged (r : Ripple) : Ripple :=
  mkRipple (baseX r) (baseY r) (radius r + speed r) (maxRadius r) (speed r)
           (lineWidth r) (baseColor r)
           (1 - (radius r + speed r) / maxRadius r) (fromAuto r).

(** The removal condition as the specification words it. *)
Definition Decayed (r : Ripple) : Prop :=
  maxRadius r <= radius r \/ opacity r <= 0.

(** The store after a frame, as the specification words it. *)
Definition pruned (rs : list Ripple) : list Ripple :=
  List.filter (fun r => negb (expired r)) (map aged rs).

(** The passes that draw no refused ring: every ripple that stays has a
    radius that is not negative and a colour that is one. *)
Definition Drawable (rs : list Ripple) : Prop :=
  Forall (fun r => ringThrows r = false) (pruned rs).

(** ** Runs, reachability, predicates and example inputs *)

(** The ripples on which line 339 divides by a non-zero number. *)
Definition Sound (r : Ripple) : Prop := ~ maxRadius r == 0.

(** A sequence of calls [maybeSpawnAutoRipple(t)], each on the page as it is
    at that call. *)
Fixpoint autoRun (calls : list (Page * Q)) (st : State) : option State :=
  match calls with
  | [] => Some st
  | (pg, t) :: calls' =>
      st' ← maybeSpawnAutoRipple pg t st; autoRun calls' st'
  end.

(** The spawns of such a sequence, observed on the store: a call has spawned
    when it returns with one more ripple; the log keeps its timestamp and the
    cursor it started from. *)
Fixpoint spawnLog (calls : list (Page * Q)) (st : State) : list (Q * nat) :=
  match calls with
  | [] => []
  | (pg, t) :: calls' =>
      match maybeSpawnAutoRipple pg t st with
      | None => []
      | Some st' =>
          (if (length (ripples st') =? S (length (ripples st)))%nat
           then [(t, autoRippleIndex st)] else [])
          ++ spawnLog calls' st'
      end
  end.

(** Consecutive logged spawns are at least an interval apart, the first one
    at least an interval after [from]. *)
Fixpoint Spaced (from : Q) (log : list (Q * nat)) : Prop :=
  match log with
  | [] => True
  | (t, _) :: log' => from + AUTO_RIPPLE_INTERVAL <= t /\ Spaced t log'
  end.

(** The state a spawning call returns. *)
Definition autoSpawned (pg : Page) (timestamp : Q) (quake : Quake)
    (st : State) : State :=
  {| mapOffsetX := mapOffsetX st;
     isDragging := isDragging st;
     ripples := createRippleFromWorld (q_baseX quake) (q_baseY quake)
                  (q_mag quake) (q_depth quake) (speedSlider pg) true
                  (ripples st);
     autoRippleIndex := autoRippleIndex st + 1;
     lastAutoRippleTime := timestamp |}.

(** The store after spawns from the events of [pg] at the given cursors, one
    after the other, each cursor taken modulo the length of the feed. *)
Definition replay (pg : Page) (rs : list Ripple) (cursors : list nat)
  : list Ripple :=
  foldl (fun acc c =>
           match recentQuakes pg !! (c mod length (recentQuakes pg))%nat with
           | Some quake =>
               createRippleFromWorld (q_baseX quake) (q_baseY quake)
                 (q_mag quake) (q_depth quake) (speedSlider pg) true acc
           | None => acc
           end)
        rs cursors.

(** An enabled page with three events, used to run the definitions. *)
Definition examplePage : Page :=
  {| canvas_width := 800; canvas_height := 400;
     showQuakesChecked := true; autoRipplesChecked := true;
     magSlider := 6; depthSlider := 10; speedSlider := 1;
     recentQuakes := [mkQuake 100 50 5 10; mkQuake 200 60 7 300;
                      mkQuake 790 70 9 0] |}.

(** The calls at the timestamps 0, 500, 2100 and 4300 on [examplePage]. *)
Definition exampleTicks : list (Page * Q) :=
  map (pair examplePage) [0; 500; 2100; 4300].

(** [examplePage] with the auto-ripple checkbox off. *)
Definition mutedPage : Page :=
  {| canvas_width := 800; canvas_height := 400;
     showQuakesChecked := true; autoRipplesChecked := false;
     magSlider := 6; depthSlider := 10; speedSlider := 1;
     recentQuakes := recentQuakes examplePage |}.

(** A state with three ripples; the second one decays at the next frame. *)
Definition exampleState : State :=
  {| mapOffsetX := -5; isDragging := false;
     ripples := [mkRipple 10 20 0 80 1 2 "#22d3ee" 1 false;
                 mkRipple 30 40 79 80 2 2 "#22d3ee" (1 # 80) false;
                 mkRipple 50 60 40 300 3 5 "#4ade80" (260 # 300) true];
     autoRippleIndex := 0; lastAutoRippleTime := 0 |}.

(** A stored ripple that has not decayed. *)
Definition Live (r : Ripple) : Prop :=
  0 <= radius r /\ radius r < maxRadius r /\ 0 < opacity r.

(** The stores reachable from the empty one by calls of
    [createRippleFromWorld], with a speed multiplier satisfying [ok], and by
    completed passes of the ripple loop. *)
Inductive StoreReachable (ok : Q -> Prop) : list Ripple -> Prop :=
| SR_init : StoreReachable ok []
| SR_spawn rs bx by' m d s fa :
    StoreReachable ok rs -> ok s ->
    StoreReachable ok (createRippleFromWorld bx by' m d s fa rs)
| SR_pass rs w offset p :
    StoreReachable ok rs ->
    advanceAndPrune w offset rs = Some p ->
    StoreReachable ok (p_ripples p).

(** The states reachable through the handlers themselves: pointer events,
    clicks and frames, on pages whose speed slider satisfies [ok]. *)
Inductive Reachable (ok : Q -> Prop) : State -> Prop :=
| Reach_init : Reachable ok initialState
| Reach_pointer st x b :
    Reachable ok st ->
    Reachable ok {| mapOffsetX := x; isDragging := b; ripples := ripples st;
                    autoRippleIndex := autoRippleIndex st;
                    lastAutoRippleTime := lastAutoRippleTime st |}
| Reach_click st pg x y st' :
    Reachable ok st -> ok (speedSlider pg) ->
    onClick pg x y st = Some st' -> Reachable ok st'
| Reach_frame st pg t f :
    Reachable ok st -> ok (speedSlider pg) ->
    drawFrame pg t st = Some f -> Reachable ok (f_state f).

(** A store of two ripples, the older growing, the newer shrinking. *)
Definition shrinkingStore : list Ripple :=
  createRippleFromWorld 10 20 5 10 (-1) false
    (createRippleFromWorld 30 40 5 10 1 false []).

(** An integer of magnitude at most 2^52: a number that binary64 holds
    exactly, and the sum and difference of two of them are not rounded. *)
Definition Whole (q : Q) : Prop :=
  exists z : Z, q == inject_Z z /\ (Z.abs z <= 2 ^ 52)%Z.

(** [whole z] proves that a numeral is the whole number [z]. *)
Ltac whole z :=
  exists z; split; [reflexivity | apply Z.leb_le; reflexivity].

(** The throttle states a page can be in: no spawn yet, or a last spawn at a
    timestamp that had passed the interval.  On them the subtraction of
    line 267 is exact in binary64 whenever its result is near the interval
    (the two timestamps are then within a factor 2 of each other). *)
Definition Throttled (st : State) : Prop :=
  lastAutoRippleTime st == 0 \/ AUTO_RIPPLE_INTERVAL <= lastAutoRippleTime st.

(** ** Pointer handlers (lines 57-86) *)

(** The state of [State] together with the two variables only the drag
    handlers use. *)
Record Session := mkSession {
  core : State;
  dragStartX : Q;
  initialOffsetX : Q
}.

Definition initialSession : Session :=
  {| core := initialState; dragStartX := 0; initialOffsetX := 0 |}.

(** [mousedown] (lines 68-76); the [y] it computes is not used. *)
Definition onMouseDown (clientX : Q) (s : Session) : Session :=
  {| core := {| mapOffsetX := mapOffsetX (core s);
                isDragging := true;
                ripples := ripples (core s);
                autoRippleIndex := autoRippleIndex (core s);
                lastAutoRippleTime := lastAutoRippleTime (core s) |};
     dragStartX := clientX;
     initialOffsetX := mapOffsetX (core s) |}.

(** [mouseup] on the window (lines 78-80). *)
Definition onMouseUp (s : Session) : Session :=
  {| core := {| mapOffsetX := mapOffsetX (core s);
                isDragging := false;
                ripples := ripples (core s);
                autoRippleIndex := autoRippleIndex (core s);
                lastAutoRippleTime := lastAutoRippleTime (core s) |};
     dragStartX := dragStartX s;
     initialOffsetX := initialOffsetX s |}.

(** The [mousemove] handler that rotates the map (lines 82-86). *)
Definition onMouseMove (clientX : Q) (s : Session) : Session :=
  if negb (isDragging (core s)) then s
  else
    let dx := clientX - dragStartX s in
    {| core := {| mapOffsetX := initialOffsetX s + dx;
                  isDragging := isDragging (core s);
                  ripples := ripples (core s);
                  autoRippleIndex := autoRippleIndex (core s);
                  lastAutoRippleTime := lastAutoRippleTime (core s) |};
       dragStartX := dragStartX s;
       initialOffsetX := initialOffsetX s |}.

(** A sequence of [mousemove] events. *)
Definition mouseMoves (xs : list Q) (s : Session) : Session :=
  foldl (fun acc x => onMouseMove x acc) s xs.

(** ** The feed (lines 134-166) *)

(** A feature of the feed: [geometry.coordinates] and [properties.mag]. *)
Record Feature := mkFeature {
  f_lon : Q;
  f_lat : Q;
  f_depthKm : Q;
  f_mag : Q
}.

(** What the request can come to: a rejected promise or an exception while
    the body is read, a response that is not [ok], or the parsed features. *)
Inductive Response :=
| Rejected
| HttpError
| Json (features : list Feature).

(** The function mapped over [data.features] (lines 148-159). *)
Definition quakeOfFeature (w h : Q) (feature : Feature) : Quake :=
  let lon := f_lon feature in
  let lat := f_lat feature in
  let depth := f_depthKm feature in
  let mag := f_mag feature in
  let baseX := ((lon + 180) / 360) * w in
  let baseY := ((90 - lat) / 180) * h in
  mkQuake baseX baseY mag depth.

(** [fetchRecentQuakes]: the page with [recentQuakes] as the function leaves
    it, and the final [statusText]. *)
Definition fetchRecentQuakes (resp : Response) (pg : Page) : Page * string :=
  match resp with
  | Json features =>
      let quakes :=
        map (quakeOfFeature (canvas_width pg) (canvas_height pg)) features in
      ({| canvas_width := canvas_width pg;
          canvas_height := canvas_height pg;
          showQuakesChecked := showQuakesChecked pg;
          autoRipplesChecked := autoRipplesChecked pg;
          magSlider := magSlider pg;
          depthSlider := depthSlider pg;
          speedSlider := speedSlider pg;
          recentQuakes := quakes |},
       ("Loaded " ++ NilZero.string_of_uint (Nat.to_uint (length quakes))
        ++ " recent earthquakes. Click the map or enable auto-ripples.")%string)
  | Rejected | HttpError =>
      (pg, "Failed to load recent earthquakes."%string)
  end.

(** The features whose coordinates are a longitude and a latitude. *)
Definition OnGlobe (feature : Feature) : Prop :=
  -180 <= f_lon feature /\ f_lon feature <= 180 /\
  -90 <= f_lat feature /\ f_lat feature <= 90.

(** Two features on the globe, one near each end of the date line. *)
Definition exampleFeatures : list Feature :=
  [mkFeature 170 60 10 5; mkFeature (-170) (-60) 300 7].

(** ** Background (lines 298-313) *)

Inductive Paint :=
| ClearRect (x y w h : Q)
| DrawImage (x y w h : Q)
| FillRect (color : string) (x y w h : Q).

Definition drawBackground (mapLoaded : bool) (w h offset : Q) : list Paint :=
  ClearRect 0 0 w h ::
  (if mapLoaded
   then
     let x1 := offset - w in
     let x2 := offset in
     [DrawImage x1 0 w h; DrawImage x2 0 w h]
   else [FillRect "#020617" 0 0 w h]).

(** ** Tooltip placement (lines 222-253) *)

(** [v || d] on a number: [d] when [v] is zero. *)
Definition orDefault (v d : Q) : Q := if Qeq_bool v 0 then d else v.

(** The [left] and [top] of the tooltip after the handler has run for a
    hovered marker drawn at [(qx, qy)], in a wrapper of size [wrapW] x
    [wrapH]; [before] is the position the tooltip had, [mag] the magnitude of
    the hovered event ([None] for [null], which passes the hover test as 0),
    [offsetWidth] and [offsetHeight] the measured size of the tooltip.  The
    text is built first, with [quake.mag.toFixed(1)]: on [null] it throws and
    the position is not touched. *)
Definition tooltipPosition
    (before : Q * Q) (mag : option Q)
    (canvasW canvasH wrapW wrapH offsetWidth offsetHeight qx qy : Q)
  : Run (Q * Q) :=
  match Num.div qx canvasW, Num.div qy canvasH with
  | Some fx, Some fy =>
      let relX := fx * wrapW in
      let relY := fy * wrapH in
      match mag with
      | None => Threw before
      | Some _ =>
          let tooltipWidth := orDefault offsetWidth 160 in
          let tooltipHeight := orDefault offsetHeight 60 in
          let left := relX + 8 in
          let top := relY + 8 in
          let maxLeft := wrapW - tooltipWidth - 4 in
          let maxTop := wrapH - tooltipHeight - 4 in
          let left := if Num.gtb left maxLeft then maxLeft else left in
          let top := if Num.gtb top maxTop then maxTop else top in
          let left := if Num.ltb left 4 then 4 else left in
          let top := if Num.ltb top 4 then 4 else top in
          Returned (left, top)
      end
  | _, _ => NotFinite
  end.

(** ** The same functions on binary64 numbers *)

Module B64.

Local Open Scope float_scope.

(** [Math.max(a, b)] and [Math.min(a, b)]: NaN if an argument is NaN, and
    [-0] below [+0]. *)
Definition max (a b : float) : float :=
  if is_nan a || is_nan b then nan
  else if a <? b then b
  else if b <? a then a
  else if is_zero a && is_zero b then (if get_sign a then b else a)
  else a.

Definition min (a b : float) : float :=
  if is_nan a || is_nan b then nan
  else if a <? b then a
  else if b <? a then b
  else if is_zero a && is_zero b then (if get_sign a then a else b)
  else a.

Record Ripple := mkRipple {
  baseX : float;
  baseY : float;
  radius : float;
  maxRadius : float;
  speed : float;
  lineWidth : float;
  baseColor : string;
  opacity : float;
  fromAuto : bool
}.

(** Lines 321-322 and 347-348. *)
Definition toScreen (baseX offset w : float) : float :=
  let screenX := baseX + offset in
  if w <? screenX then screenX - w else screenX.

(** Lines 182-183. *)
Definition toBase (screenX offset w : float) : float :=
  let baseX := screenX - offset in
  if baseX <? 0 then baseX + w else baseX.

(** Lines 94-131. *)
Definition createRippleFromWorld
    (baseX baseY magnitude depth speedMultiplier : float) (fromAuto : bool)
    (ripples : list Ripple) : list Ripple :=
  let mag := max 3 (min 9 magnitude) in
  let depthKm := max 0 (min 700 depth) in
  let magFactor := (mag - 3) / 6 in
  let depthFactor := 1 - depthKm / 700 in
  let baseMaxRadius := 80 in
  let extraRadius := 220 in
  let maxRadius :=
    baseMaxRadius + extraRadius * magFactor * (0.4 + 0.6 * depthFactor) in
  let baseSpeed := 1.1 in
  let rippleSpeed := baseSpeed * speedMultiplier * (0.6 + 0.8 * magFactor) in
  let lineWidth := 2 + 3 * magFactor in
  let color := if fromAuto then "#4ade80"%string else "#22d3ee"%string in
  ripples ++ [mkRipple baseX baseY 0 maxRadius rippleSpeed lineWidth color 1
                       fromAuto].

(** Lines 338-340. *)
Definition age (r : Ripple) : Ripple :=
  let radius' := radius r + speed r in
  let t := radius' / maxRadius r in
  mkRipple (baseX r) (baseY r) radius' (maxRadius r) (speed r)
           (lineWidth r) (baseColor r) (1 - t) (fromAuto r).

(** Line 342. *)
Definition expired (r : Ripple) : bool :=
  (maxRadius r <=? radius r) || (opacity r <=? 0).

(** Lines 347-361: [createRadialGradient] throws on an argument that is not
    finite and on a negative radius, [addColorStop] on a string that is no
    colour: a channel that is NaN (the channels do not depend on the alpha)
    or an alpha that is not finite. *)
Definition ringThrows (w offset : float) (r : Ripple) : bool :=
  let screenX := toScreen (baseX r) offset w in
  let screenY := baseY r in
  negb (is_finite screenX && is_finite screenY
        && is_finite (radius r * 0.7) && is_finite (radius r))
  || (radius r * 0.7 <? 0) || (radius r <? 0)
  || negb (isColor (hexToRgba (baseColor r) 0%Q))
  || negb (is_finite (opacity r)).

(** The loop of lines 336-368 on the array; the drawing calls are followed
    only as far as they throw. *)
Fixpoint rippleLoop (w offset : float) (n : nat) (ripples : list Ripple)
  : Run (list Ripple) :=
  match n with
  | O => Returned ripples
  | S i =>
      match ripples !! i with
      | None => Threw ripples
      | Some r =>
          let r' := age r in
          if expired r' then rippleLoop w offset i (delete i ripples)
          else if ringThrows w offset r' then Threw (<[i := r']> ripples)
          else rippleLoop w offset i (<[i := r']> ripples)
      end
  end.

(** [n] completed passes of the loop, nothing being spawned. *)
Fixpoint passes (w offset : float) (n : nat) (ripples : list Ripple)
  : option (list Ripple) :=
  match n with
  | O => Some ripples
  | S n' =>
      match rippleLoop w offset (length ripples) ripples with
      | Returned ripples' => passes w offset n' ripples'
      | Threw _ | NotFinite => None
      end
  end.

End B64.

(** ** Predicates on drawing calls and ripples *)

(** A ring the canvas accepts: [createRadialGradient] and [arc] take no
    negative radius. *)
Definition ValidRing (d : Draw) : Prop :=
  match d with
  | Ring _ _ inner outer width alpha _ =>
      0 <= inner /\ inner <= outer /\ 0 < alpha /\ alpha <= 1 /\
      2 <= width /\ width <= 5
  | Marker _ _ _ => False
  end.

(** What [createRippleFromWorld] fixes for good in a ripple. *)
Definition WellBuilt (r : Ripple) : Prop :=
  80 <= maxRadius r /\ maxRadius r <= 300 /\
  2 <= lineWidth r /\ lineWidth r <= 5 /\
  baseColor r = (if fromAuto r then "#4ade80" else "#22d3ee")%string.


(** What every pass keeps of a ripple that grows: the growth rate is not
    negative and the opacity is the one line 340 computes from the radius. *)
Definition Fading (r : Ripple) : Prop :=
  0 <= speed r /\ opacity r == 1 - radius r / maxRadius r.
(** * Proofs *)

(** ** Facts about the number model *)

Module NumFacts.

Lemma ltb_true a b : Num.ltb a b = true <-> a < b.
Proof. unfold Num.ltb. destruct (Qlt_le_dec a b); split; intros; try easy; lra. Qed.

Lemma ltb_false a b : Num.ltb a b = false <-> b <= a.
Proof. unfold Num.ltb. destruct (Qlt_le_dec a b); split; intros; try easy; lra. Qed.

Lemma leb_true a b : Num.leb a b = true <-> a <= b.
Proof. unfold Num.leb. destruct (Qlt_le_dec b a); split; intros; try easy; lra. Qed.

Lemma leb_false a b : Num.leb a b = false <-> b < a.
Proof. unfold Num.leb. destruct (Qlt_le_dec b a); split; intros; try easy; lra. Qed.

Lemma gtb_true a b : Num.gtb a b = true <-> b < a.
Proof. apply ltb_true. Qed.

Lemma gtb_false a b : Num.gtb a b = false <-> a <= b.
Proof. apply ltb_false. Qed.

Lemma geb_true a b : Num.geb a b = true <-> b <= a.
Proof. apply leb_true. Qed.

Lemma geb_false a b : Num.geb a b = false <-> a < b.
Proof. apply leb_false. Qed.

(** On a non-negative number truncation is the floor. *)
Lemma trunc_nonneg q : 0 <= q -> Num.trunc q = Qfloor q.
Proof.
  destruct q as [n d]. unfold Qle, Num.trunc. simpl. intros H.
  apply Z.quot_div_nonneg; lia.
Qed.

(** On a non-positive number it is the ceiling. *)
Lemma trunc_nonpos q : q <= 0 -> Num.trunc q = Qceiling q.
Proof.
  destruct q as [n d]. unfold Qle, Num.trunc, Qceiling. simpl. intros H.
  replace n with (- - n)%Z at 1 by lia.
  rewrite Z.quot_opp_l by lia. f_equal.
  apply Z.quot_div_nonneg; lia.
Qed.

Lemma trunc_bounds_nonneg q :
  0 <= q -> inject_Z (Num.trunc q) <= q /\ q < inject_Z (Num.trunc q) + 1.
Proof.
  intros H. rewrite (trunc_nonneg q H). split.
  - apply Qfloor_le.
  - pose proof (Qlt_floor q) as L. rewrite inject_Z_plus in L. exact L.
Qed.

Lemma trunc_bounds_nonpos q :
  q <= 0 -> q <= inject_Z (Num.trunc q) /\ inject_Z (Num.trunc q) < q + 1.
Proof.
  intros H. rewrite (trunc_nonpos q H). split.
  - apply Qle_ceiling.
  - pose proof (Qceiling_lt q) as L.
    unfold Z.sub in L. rewrite inject_Z_plus in L.
    change (inject_Z (- (1))) with (- (1)) in L. lra.
Qed.

Lemma rem_pos n d :
  0 < d -> Num.rem n d = Some (n - d * inject_Z (Num.trunc (n / d))).
Proof.
  intros H. unfold Num.rem.
  destruct (Qeq_bool d 0) eqn:E; [|reflexivity].
  apply Qeq_bool_iff in E. lra.
Qed.

Lemma div_nonzero n d : ~ d == 0 -> Num.div n d = Some (n / d).
Proof.
  intros H. unfold Num.div.
  destruct (Qeq_bool d 0) eqn:E; [|reflexivity].
  apply Qeq_bool_iff in E. contradiction.
Qed.

(** The remainder of a non-negative dividend lies in [[0, d)]. *)
Lemma rem_range_nonneg n d :
  0 < d -> 0 <= n ->
  let r := n - d * inject_Z (Num.trunc (n / d)) in 0 <= r /\ r < d.
Proof.
  intros Hd Hn r. subst r.
  assert (Hx : d * (n / d) == n) by (apply Qmult_div_r; lra).
  assert (H0 : 0 <= n / d) by (apply Qle_shift_div_l; lra).
  destruct (trunc_bounds_nonneg _ H0) as [L U].
  set (x := n / d) in *. set (t := inject_Z (Num.trunc x)) in *.
  split; nra.
Qed.

(** The remainder of a non-positive dividend lies in [(-d, 0]]. *)
Lemma rem_range_nonpos n d :
  0 < d -> n <= 0 ->
  let r := n - d * inject_Z (Num.trunc (n / d)) in - d < r /\ r <= 0.
Proof.
  intros Hd Hn r. subst r.
  assert (Hx : d * (n / d) == n) by (apply Qmult_div_r; lra).
  assert (H0 : n / d <= 0) by (apply Qle_shift_div_r; lra).
  destruct (trunc_bounds_nonpos _ H0) as [L U].
  set (x := n / d) in *. set (t := inject_Z (Num.trunc x)) in *.
  split; nra.
Qed.

Lemma rem_range n d :
  0 < d ->
  let r := n - d * inject_Z (Num.trunc (n / d)) in - d < r /\ r < d.
Proof.
  intros Hd r. destruct (Qlt_le_dec n 0) as [Hn | Hn].
  - destruct (rem_range_nonpos n d Hd) as [A B]; [lra|]. fold r in A, B.
    split; lra.
  - destruct (rem_range_nonneg n d Hd Hn) as [A B]. fold r in A, B.
    split; lra.
Qed.

End NumFacts.

(** ** Horizontal rotation *)

(** On a canvas of positive width the two remainders are defined and the
    result is the representative of the offset in [[0, w)]. *)
Lemma normalizeOffset_total (w offsetX : Q) :
  0 < w ->
  exists r : Q,
    normalizeOffset w offsetX = Some r /\ 0 <= r /\ r < w /\
    exists k : Z, r == offsetX + inject_Z k * w.
Proof.
  intros Hw. unfold normalizeOffset.
  rewrite (NumFacts.rem_pos offsetX w Hw). simpl.
  rewrite (NumFacts.rem_pos _ w Hw).
  destruct (NumFacts.rem_range offsetX w Hw) as [A B].
  set (m := offsetX - w * inject_Z (Num.trunc (offsetX / w))) in *.
  destruct (NumFacts.rem_range_nonneg (m + w) w Hw) as [C D]; [lra|].
  eexists; split; [reflexivity|]. split; [exact C|]. split; [exact D|].
  exists (1 - Num.trunc (offsetX / w) - Num.trunc ((m + w) / w))%Z.
  unfold Z.sub. rewrite !inject_Z_plus, !inject_Z_opp.
  subst m. change (inject_Z 1) with 1. ring.
Qed.

(** C4. For every offset (any sign, integral or not) and every positive
    canvas width [w], [normalizeOffset] returns a number of [[0, w)] that
    differs from the offset by a whole number of widths; on the offset [-5]
    and the width [800] it returns [795]. *)
Theorem normalizeOffset_range (w offsetX : Q) :
  0 < w ->
  (exists r : Q,
      normalizeOffset w offsetX = Some r /\ 0 <= r /\ r < w /\
      exists k : Z, r == offsetX + inject_Z k * w) /\
  normalizeOffset 800 (-5) = Some 795.
Proof.
  intros Hw. split; [|reflexivity].
  apply normalizeOffset_total, Hw.
Qed.

(** [normalizeOffset_range] at the offset [-805.5] and the width [800]. *)
Lemma normalizeOffset_range_witness :
  0 < 800 /\
  ((exists r : Q,
       normalizeOffset 800 (-805.5) = Some r /\ 0 <= r /\ r < 800 /\
       exists k : Z, r == -805.5 + inject_Z k * 800) /\
   normalizeOffset 800 (-5) = Some 795).
Proof.
  split; [reflexivity | apply (normalizeOffset_range 800 (-805.5)); reflexivity].
Defined.

Lemma toScreen_cases x o w :
  (w < x + o /\ toScreen x o w = x + o - w) \/
  (x + o <= w /\ toScreen x o w = x + o).
Proof.
  unfold toScreen. destruct (Num.gtb (x + o) w) eqn:G.
  - left. apply NumFacts.gtb_true in G. auto.
  - right. apply NumFacts.gtb_false in G. auto.
Qed.

Lemma toBase_cases s o w :
  (s - o < 0 /\ toBase s o w = s - o + w) \/
  (0 <= s - o /\ toBase s o w = s - o).
Proof.
  unfold toBase. destruct (Num.ltb (s - o) 0) eqn:L.
  - left. apply NumFacts.ltb_true in L. auto.
  - right. apply NumFacts.ltb_false in L. auto.
Qed.

(** ** Whole numbers *)

(** A number between 0 and a whole number is whole as soon as it is an
    integer. *)
Lemma Whole_in_range (r w : Q) (z : Z) :
  r == inject_Z z -> 0 <= r -> r <= w -> Whole w -> Whole r.
Proof.
  intros E R0 Rw (zw & Ew & Bw). exists z. split; [exact E|].
  rewrite E in R0, Rw. rewrite Ew in Rw.
  change 0 with (inject_Z 0) in R0.
  rewrite <- Zle_Qle in R0, Rw. lia.
Qed.


Lemma Whole_minus_integer (a b : Q) :
  Whole a -> Whole b -> exists z : Z, a - b == inject_Z z.
Proof.
  intros (za & Ea & _) (zb & Eb & _). exists (za - zb)%Z.
  unfold Z.sub. rewrite inject_Z_plus, inject_Z_opp, Ea, Eb. reflexivity.
Qed.




(** ** Spawning *)

Lemma max_min_clamp (lo hi x : Q) :
  lo <= hi ->
  let c := Num.max lo (Num.min hi x) in
  lo <= c /\ c <= hi /\
  (x <= lo -> c == lo) /\ (hi <= x -> c == hi) /\
  (lo <= x -> x <= hi -> c == x).
Proof.
  intros H c. subst c. unfold Num.max, Num.min.
  destruct (Q.min_spec hi x) as [[A ->] | [A ->]];
    [destruct (Q.max_spec lo hi) as [[B ->] | [B ->]]
    |destruct (Q.max_spec lo x) as [[B ->] | [B ->]]];
    repeat split; intros; lra.
Qed.

(** The new ripple is pushed at the end, whatever the store holds. *)
Lemma createRippleFromWorld_app bx by' m d s fa rs :
  createRippleFromWorld bx by' m d s fa rs
  = rs ++ createRippleFromWorld bx by' m d s fa [].
Proof. reflexivity. Qed.

(** C2. [createRippleFromWorld] is total; it clamps the magnitude to
    [[3, 9]] and the depth to [[0, 700]] and appends, at the end of the store,
    the ripple with the radius 0, the opacity 1 and the maximal radius,
    growth rate and line width given by the formulas on the clamped values. *)
Theorem createRippleFromWorld_spec
    (bx by' magnitude depth speedMultiplier : Q) (fa : bool)
    (rs : list Ripple) :
  exists mag depthKm : Q,
    (3 <= mag /\ mag <= 9 /\
     (magnitude <= 3 -> mag == 3) /\ (9 <= magnitude -> mag == 9) /\
     (3 <= magnitude -> magnitude <= 9 -> mag == magnitude)) /\
    (0 <= depthKm /\ depthKm <= 700 /\
     (depth <= 0 -> depthKm == 0) /\ (700 <= depth -> depthKm == 700) /\
     (0 <= depth -> depth <= 700 -> depthKm == depth)) /\
    let magFactor := (mag - 3) / 6 in
    let depthFactor := 1 - depthKm / 700 in
    createRippleFromWorld bx by' magnitude depth speedMultiplier fa rs
    = rs ++ [ {| baseX := bx; baseY := by'; radius := 0;
                 maxRadius := 80 + 220 * magFactor * (0.4 + 0.6 * depthFactor);
                 speed := 1.1 * speedMultiplier * (0.6 + 0.8 * magFactor);
                 lineWidth := 2 + 3 * magFactor;
                 baseColor := if fa then "#4ade80"%string
                              else "#22d3ee"%string;
                 opacity := 1; fromAuto := fa |} ].
Proof.
  exists (Num.max 3 (Num.min 9 magnitude)), (Num.max 0 (Num.min 700 depth)).
  split; [apply max_min_clamp; discriminate|].
  split; [apply max_min_clamp; discriminate|].
  reflexivity.
Qed.

(** C9. A call with the magnitude 15 appends the very ripple a call with
    the magnitude 9 appends, and a call with the depth -10 the very ripple a
    call with the depth 0 appends: in each pair the two stores are the old
    store followed by one and the same ripple, whose radius is 0, whose
    opacity is 1 and whose maximal radius, growth rate, line width and colour
    are those of the clamped value. *)
Theorem clamp_boundaries
    (bx by' magnitude depth speedMultiplier : Q) (fa : bool)
    (rs : list Ripple) :
  (exists r : Ripple,
      createRippleFromWorld bx by' 15 depth speedMultiplier fa rs = rs ++ [r] /\
      createRippleFromWorld bx by' 9 depth speedMultiplier fa rs = rs ++ [r] /\
      baseX r = bx /\ baseY r = by' /\ radius r = 0 /\ opacity r = 1 /\
      maxRadius r
      = 80 + 220 * ((9 - 3) / 6)
             * (0.4 + 0.6 * (1 - Num.max 0 (Num.min 700 depth) / 700)) /\
      speed r = 1.1 * speedMultiplier * (0.6 + 0.8 * ((9 - 3) / 6)) /\
      lineWidth r = 2 + 3 * ((9 - 3) / 6) /\
      baseColor r = (if fa then "#4ade80" else "#22d3ee")%string /\
      fromAuto r = fa) /\
  (exists r : Ripple,
      createRippleFromWorld bx by' magnitude (-10) speedMultiplier fa rs
      = rs ++ [r] /\
      createRippleFromWorld bx by' magnitude 0 speedMultiplier fa rs
      = rs ++ [r] /\
      baseX r = bx /\ baseY r = by' /\ radius r = 0 /\ opacity r = 1 /\
      maxRadius r
      = 80 + 220 * ((Num.max 3 (Num.min 9 magnitude) - 3) / 6)
             * (0.4 + 0.6 * (1 - 0 / 700)) /\
      speed r
      = 1.1 * speedMultiplier
        * (0.6 + 0.8 * ((Num.max 3 (Num.min 9 magnitude) - 3) / 6)) /\
      lineWidth r = 2 + 3 * ((Num.max 3 (Num.min 9 magnitude) - 3) / 6) /\
      baseColor r = (if fa then "#4ade80" else "#22d3ee")%string /\
      fromAuto r = fa).
Proof.
  split; eexists; (split; [reflexivity|]); (split; [reflexivity|]);
    repeat split.
Qed.

(** The fields of a freshly spawned ripple that the lifecycle depends on. *)
Lemma spawned_fields bx by' m d s fa rs r :
  last (createRippleFromWorld bx by' m d s fa rs) = Some r ->
  radius r = 0 /\ opacity r = 1 /\
  80 <= maxRadius r /\ maxRadius r <= 300 /\
  exists k : Q, 0.6 <= k /\ k <= 1.4 /\ speed r == 1.1 * s * k /\
                (m <= 3 -> k == 0.6) /\ (9 <= m -> k == 1.4).
Proof.
  unfold createRippleFromWorld. rewrite last_snoc. intros [= <-]. simpl.
  destruct (max_min_clamp 3 9 m) as (A & B & C & D & _); [discriminate|].
  destruct (max_min_clamp 0 700 d) as (E & F & _); [discriminate|].
  set (mag := Num.max 3 (Num.min 9 m)) in *.
  set (dk := Num.max 0 (Num.min 700 d)) in *.
  assert (Hm : (mag - 3) / 6 == (mag - 3) * (1 # 6)) by (field).
  assert (Hd : dk / 700 == dk * (1 # 700)) by (field).
  repeat split.
  - rewrite Hm, Hd. nra.
  - rewrite Hm, Hd. nra.
  - exists (0.6 + 0.8 * ((mag - 3) / 6)). rewrite Hm.
    repeat split; lra.
Qed.

(** ** The ripple loop *)

Lemma age_aged r : Sound r -> age r = Some (aged r).
Proof.
  intros H. unfold age, aged.
  rewrite (NumFacts.div_nonzero _ _ H). reflexivity.
Qed.

Lemma age_None r : maxRadius r == 0 -> age r = None.
Proof.
  intros H. unfold age, Num.div.
  destruct (Qeq_bool (maxRadius r) 0) eqn:E; [reflexivity|].
  apply Qeq_bool_neq in E. contradiction.
Qed.

Lemma expired_Decayed r : expired r = true <-> Decayed r.
Proof.
  unfold expired, Decayed.
  rewrite orb_true_iff, NumFacts.geb_true, NumFacts.leb_true. reflexivity.
Qed.

Lemma expired_not_Decayed r : expired r = false <-> ~ Decayed r.
Proof.
  rewrite <- expired_Decayed. destruct (expired r); split; congruence.
Qed.

(** The ring of a ripple is accepted exactly when its radius is not
    negative and its colour is one. *)
Lemma ringThrows_false r :
  ringThrows r = false <->
  0 <= radius r /\ isColor (hexToRgba (baseColor r) (opacity r)) = true.
Proof.
  unfold ringThrows.
  rewrite !orb_false_iff, !NumFacts.ltb_false, negb_false_iff. split.
  - intros [[_ H] C]. auto.
  - intros [H C]. repeat split; [lra | exact H | exact C].
Qed.

(** The two colours of line 118 are colours. *)
Lemma engine_color (fa : bool) (a : Q) :
  isColor (hexToRgba (if fa then "#4ade80" else "#22d3ee") a) = true.
Proof. destruct fa; reflexivity. Qed.

Lemma pruned_app rs1 rs2 : pruned (rs1 ++ rs2) = pruned rs1 ++ pruned rs2.
Proof. unfold pruned. rewrite map_app. apply List.filter_app. Qed.

Lemma pruned_cons r rs :
  pruned (r :: rs)
  = (if expired (aged r) then [] else [aged r]) ++ pruned rs.
Proof. unfold pruned. simpl. destruct (expired (aged r)); reflexivity. Qed.

Lemma In_pruned r rs :
  In r (pruned rs) <->
  exists r0, In r0 rs /\ r = aged r0 /\ expired (aged r0) = false.
Proof.
  unfold pruned. rewrite filter_In, in_map_iff. split.
  - intros [(r0 & <- & H0) E]. exists r0. split; [exact H0|].
    split; [reflexivity|].
    destruct (expired (aged r0)); [discriminate E|reflexivity].
  - intros (r0 & H0 & -> & E). split; [eauto|]. rewrite E. reflexivity.
Qed.

Lemma Drawable_snoc l x :
  Drawable (l ++ [x]) <->
  Drawable l /\ (expired (aged x) = false -> ringThrows (aged x) = false).
Proof.
  unfold Drawable. rewrite pruned_app, Forall_app, pruned_cons.
  change (pruned []) with (@nil Ripple). rewrite app_nil_r.
  destruct (expired (aged x)).
  - rewrite Forall_nil. split; [intros [H _]; split; [exact H | discriminate]|].
    intros [H _]. auto.
  - rewrite Forall_singleton. split; intros [H G]; auto.
Qed.

(** The loop invariant: with [n = length pre] iterations left, the elements
    of [pre] are still to be visited and the tail [suf] is final.  The loop
    returns exactly when no division by zero and no refused ring lie ahead,
    and then it has read every index once, from the last to the first, left
    the aged ripples that have not decayed, and drawn them. *)
Lemma rippleLoop_Returned (w offset : Q) (pre : list Ripple) :
  forall (suf : list Ripple) (d : list Draw) (v : list (nat * Ripple))
         (p : Pass),
    rippleLoop w offset (length pre) (mkPass (pre ++ suf) d v) = Returned p
    <->
    Forall Sound pre /\ Drawable pre /\
    p = mkPass (pruned pre ++ suf)
               (d ++ map (drawRipple w offset) (rev (pruned pre)))
               (v ++ rev (imap pair pre)).
Proof.
  induction pre as [|x l IH] using rev_ind; intros suf d v p.
  - simpl. rewrite !app_nil_r. split.
    + intros [= <-]. repeat split; constructor.
    + intros (_ & _ & ->). reflexivity.
  - rewrite Forall_app, Forall_singleton, Drawable_snoc.
    rewrite length_app, Nat.add_1_r. simpl.
    rewrite <- app_assoc. simpl.
    rewrite (list_lookup_middle l suf x (length l) eq_refl).
    rewrite pruned_app, pruned_cons, imap_app, !rev_app_distr. simpl.
    rewrite Nat.add_0_r.
    destruct (Qeq_dec (maxRadius x) 0) as [Z | Z].
    { rewrite (age_None x Z). split; [discriminate|].
      intros ((_ & S) & _). contradiction. }
    rewrite (age_aged x Z).
    destruct (expired (aged x)) eqn:E.
    + rewrite delete_middle, IH. simpl.
      rewrite !app_nil_r, <- !app_assoc. simpl. split.
      * intros (S & D & ->). repeat split; try assumption. discriminate.
      * intros ((S & _) & (D & _) & ->). auto.
    + destruct (ringThrows (aged x)) eqn:T.
      * split; [discriminate|]. intros (_ & (_ & D) & _).
        specialize (D eq_refl). discriminate D.
      * rewrite insert_app_r_alt by lia. rewrite Nat.sub_diag. simpl.
        rewrite IH. unfold pruned at 5. simpl.
        rewrite <- !app_assoc. simpl. split.
        -- intros (S & D & ->). repeat split; try assumption; auto.
        -- intros ((S & _) & (D & _) & ->). auto.
Qed.

(** On a store without a zero maximal radius the loop does not divide by
    zero. *)
Lemma rippleLoop_finite (w offset : Q) (pre : list Ripple) :
  forall suf d v,
    Forall Sound pre ->
    rippleLoop w offset (length pre) (mkPass (pre ++ suf) d v) <> NotFinite.
Proof.
  induction pre as [|x l IH] using rev_ind; intros suf d v S.
  - discriminate.
  - rewrite Forall_app, Forall_singleton in S. destruct S as [Sl Sx].
    rewrite length_app, Nat.add_1_r. simpl.
    rewrite <- app_assoc. simpl.
    rewrite (list_lookup_middle l suf x (length l) eq_refl).
    rewrite (age_aged x Sx).
    destruct (expired (aged x)).
    + rewrite delete_middle. apply IH, Sl.
    + destruct (ringThrows (aged x)); [discriminate|].
      rewrite insert_app_r_alt by lia. rewrite Nat.sub_diag. simpl.
      apply IH, Sl.
Qed.

(** A completed pass, on the array alone. *)
Lemma advanceAndPrune_Some (w offset : Q) (rs : list Ripple) (p : Pass) :
  advanceAndPrune w offset rs = Some p <->
  Forall Sound rs /\ Drawable rs /\
  p = mkPass (pruned rs)
             (map (drawRipple w offset) (rev (pruned rs)))
             (rev (imap pair rs)).
Proof.
  unfold advanceAndPrune.
  pose proof (rippleLoop_Returned w offset rs [] [] [] p) as L.
  rewrite !app_nil_r in L. simpl in L. rewrite <- L.
  destruct (rippleLoop _ _ _ _); split; congruence.
Qed.

(** The markers are all drawn unless one of them has a negative radius. *)
Lemma drawMarkers_Returned (w offset : Q) (quakes : list Quake) :
  forall (d d' : list Draw),
    drawMarkers w offset quakes d = Returned d' <->
    Forall (fun quake => markerThrows quake = false) quakes /\
    d' = d ++ map (drawMarker w offset) quakes.
Proof.
  induction quakes as [|q qs IH]; intros d d'; simpl.
  - rewrite app_nil_r. split.
    + intros [= <-]. split; [constructor | reflexivity].
    + intros [_ ->]. reflexivity.
  - rewrite Forall_cons. destruct (markerThrows q).
    + split; [discriminate | intros [[H _] _]; discriminate H].
    + rewrite IH, <- app_assoc. simpl. split.
      * intros [H ->]. auto.
      * intros [[_ H] ->]. auto.
Qed.

Lemma drawMarkers_finite (w offset : Q) (quakes : list Quake) :
  forall d, drawMarkers w offset quakes d <> NotFinite.
Proof.
  induction quakes as [|q qs IH]; intros d; simpl; [discriminate|].
  destruct (markerThrows q); [discriminate | apply IH].
Qed.
(** ** The auto-ripple throttle *)

Lemma length_createRippleFromWorld bx by' m d s fa rs :
  length (createRippleFromWorld bx by' m d s fa rs) = S (length rs).
Proof.
  unfold createRippleFromWorld. rewrite length_app. simpl. lia.
Qed.

(** The two outcomes of a call. *)
Lemma maybeSpawnAutoRipple_cases pg t st :
  ((autoRipplesChecked pg = false \/ recentQuakes pg = [] \/
    t - lastAutoRippleTime st < AUTO_RIPPLE_INTERVAL) /\
   maybeSpawnAutoRipple pg t st = Some st) \/
  (autoRipplesChecked pg = true /\ recentQuakes pg <> [] /\
   AUTO_RIPPLE_INTERVAL <= t - lastAutoRippleTime st /\
   exists quake,
     recentQuakes pg !! (autoRippleIndex st mod length (recentQuakes pg))%nat
     = Some quake /\
     maybeSpawnAutoRipple pg t st = Some (autoSpawned pg t quake st)).
Proof.
  unfold maybeSpawnAutoRipple.
  destruct (autoRipplesChecked pg) eqn:C; simpl; [|left; auto].
  destruct (recentQuakes pg) as [|q0 qs] eqn:Q; simpl; [left; auto|].
  destruct (Num.ltb _ _) eqn:L.
  - apply NumFacts.ltb_true in L. left; auto.
  - apply NumFacts.ltb_false in L. right.
    repeat split; [discriminate | exact L |].
    destruct (lookup_lt_is_Some_2 (q0 :: qs)
                (autoRippleIndex st mod length (q0 :: qs))%nat) as [q Hq].
    { apply Nat.mod_upper_bound. simpl. lia. }
    exists q. split; [exact Hq|].
    simpl in Hq |- *. rewrite Hq. reflexivity.
Qed.

Lemma spawnLog_step pg t st calls :
  spawnLog ((pg, t) :: calls) st
  = match maybeSpawnAutoRipple pg t st with
    | None => []
    | Some st' =>
        (if (length (ripples st') =? S (length (ripples st)))%nat
         then [(t, autoRippleIndex st)] else [])
        ++ spawnLog calls st'
    end.
Proof. reflexivity. Qed.

(** Whatever the calls, the log is spaced from the last spawn time on, and
    its cursors count up from the current one. *)
Lemma spawnLog_spaced calls :
  forall st,
    Spaced (lastAutoRippleTime st) (spawnLog calls st) /\
    map snd (spawnLog calls st)
    = seq (autoRippleIndex st) (length (spawnLog calls st)).
Proof.
  induction calls as [|[pg t] calls IH]; intros st.
  - simpl. split; trivial.
  - rewrite spawnLog_step.
    destruct (maybeSpawnAutoRipple_cases pg t st)
      as [[_ ->] | (_ & _ & Ht & q & _ & ->)].
    + replace (length (ripples st) =? S (length (ripples st)))%nat
        with false by (symmetry; apply Nat.eqb_neq; lia).
      apply (IH st).
    + unfold autoSpawned at 1. simpl ripples.
      rewrite length_createRippleFromWorld, Nat.eqb_refl. simpl.
      destruct (IH (autoSpawned pg t q st)) as (A & C).
      simpl in A, C. repeat split.
      * lra.
      * exact A.
      * rewrite C. f_equal. f_equal. lia.
Qed.

(** In a spaced log any two entries are at least an interval apart. *)
Lemma Spaced_pairs log :
  forall from i j ti ci tj cj,
    Spaced from log -> (i < j)%nat ->
    log !! i = Some (ti, ci) -> log !! j = Some (tj, cj) ->
    from + AUTO_RIPPLE_INTERVAL <= ti /\ ti + AUTO_RIPPLE_INTERVAL <= tj.
Proof.
  induction log as [|[t c] log IH]; intros from i j ti ci tj cj HS Hij Hi Hj.
  - discriminate.
  - destruct HS as [H0 HS]. destruct j as [|j]; [lia|]. simpl in Hj.
    destruct i as [|i].
    + injection Hi as <- <-. split; [exact H0|].
      destruct j as [|j].
      * destruct log as [|[t' c'] log']; [discriminate|].
        injection Hj as <- <-. apply HS.
      * destruct (IH t 0%nat (S j) (fst (default (0, 0%nat) (log !! 0%nat)))
                    (snd (default (0, 0%nat) (log !! 0%nat))) tj cj HS)
          as [A B]; [lia | | exact Hj |].
        { destruct log as [|[t' c'] log']; [discriminate|reflexivity]. }
        unfold AUTO_RIPPLE_INTERVAL in *. lra.
    + simpl in Hi.
      destruct (IH t i j ti ci tj cj HS) as [A B]; [lia | exact Hi | exact Hj |].
      split; [|exact B]. unfold AUTO_RIPPLE_INTERVAL in *. lra.
Qed.

(** A sequence of calls never throws: it adds one ripple and advances the
    cursor by one for every logged spawn. *)
Lemma autoRun_total calls :
  forall st, exists st',
    autoRun calls st = Some st' /\
    length (ripples st')
    = (length (ripples st) + length (spawnLog calls st))%nat /\
    autoRippleIndex st'
    = (autoRippleIndex st + length (spawnLog calls st))%nat.
Proof.
  induction calls as [|[pg t] calls IH]; intros st.
  - exists st. simpl. repeat split; lia.
  - rewrite spawnLog_step. simpl autoRun.
    destruct (maybeSpawnAutoRipple_cases pg t st)
      as [[_ ->] | (_ & _ & _ & q & _ & ->)]; simpl.
    + replace (length (ripples st) =? S (length (ripples st)))%nat
        with false by (symmetry; apply Nat.eqb_neq; lia).
      apply (IH st).
    + rewrite length_createRippleFromWorld, Nat.eqb_refl.
      destruct (IH (autoSpawned pg t q st)) as (st' & R & L & C).
      exists st'. split; [exact R|]. simpl in L, C |- *.
      rewrite length_createRippleFromWorld in L. lia.
Qed.

(** On an unchanging page the store after a sequence of calls is the replay
    of the feed from the cursor on, one event for every logged spawn. *)
Lemma autoRun_replay pg ts :
  forall st, exists st',
    autoRun (map (pair pg) ts) st = Some st' /\
    ripples st'
    = replay pg (ripples st)
        (seq (autoRippleIndex st) (length (spawnLog (map (pair pg) ts) st))).
Proof.
  induction ts as [|t ts IH]; intros st.
  - exists st. split; reflexivity.
  - change (map (pair pg) (t :: ts)) with ((pg, t) :: map (pair pg) ts).
    rewrite spawnLog_step. simpl autoRun.
    destruct (maybeSpawnAutoRipple_cases pg t st)
      as [[_ ->] | (_ & _ & _ & q & Hq & ->)]; simpl.
    + replace (length (ripples st) =? S (length (ripples st)))%nat
        with false by (symmetry; apply Nat.eqb_neq; lia).
      apply (IH st).
    + rewrite length_createRippleFromWorld, Nat.eqb_refl.
      destruct (IH (autoSpawned pg t q st)) as (st' & R & E).
      exists st'. split; [exact R|]. rewrite E. simpl.
      rewrite Hq, Nat.add_1_r. reflexivity.
Qed.

(** The throttle stays in the states it can be in. *)
Lemma maybeSpawnAutoRipple_Throttled pg t st st' :
  Throttled st -> maybeSpawnAutoRipple pg t st = Some st' -> Throttled st'.
Proof.
  intros H E.
  destruct (maybeSpawnAutoRipple_cases pg t st)
    as [[_ E'] | (_ & _ & T & q & _ & E')];
    rewrite E' in E; injection E as E; subst st'; [exact H|].
  right. simpl. unfold Throttled, AUTO_RIPPLE_INTERVAL in *.
  destruct H as [H | H]; lra.
Qed.

Lemma autoRun_Throttled calls :
  forall st st',
    Throttled st -> autoRun calls st = Some st' -> Throttled st'.
Proof.
  induction calls as [|[pg t] calls IH]; intros st st' H E.
  - injection E as <-. exact H.
  - simpl in E.
    destruct (maybeSpawnAutoRipple pg t st) as [st1|] eqn:E1; [|discriminate E].
    apply (IH st1 st'); [|exact E].
    apply (maybeSpawnAutoRipple_Throttled pg t st st1 H E1).
Qed.

(** Five calls on [examplePage], four of them spawning: the fourth spawn
    wraps around to the first event. *)
Example autoRun_wraps :
  map baseX <$> (ripples <$> autoRun (map (pair examplePage)
                                        [2000; 2500; 4000; 6000; 8000])
                               initialState)
  = Some [100; 200; 790; 100].
Proof. reflexivity. Qed.

(** C3. Take a throttle that has not spawned yet or whose last spawn was at
    a timestamp of at least 2000, as it is from the start of the page on.  A
    call of [maybeSpawnAutoRipple] changes nothing when the checkbox is off or
    the feed is empty, and nothing when less than 2000 ms have passed since
    the last spawn; otherwise it pushes exactly one ripple, built with
    [fromAuto = true] from the event at the cursor modulo the length of the
    feed, adds one to the cursor and records the timestamp.  Hence, in any
    sequence of calls, two spawns are at least 2000 ms of timestamp apart and
    the k-th spawn starts from the cursor advanced k times; the sequence never
    throws, it leaves the throttle in such a state again, and on an
    unchanging page it leaves the store with the events of the feed replayed
    cyclically from the cursor on. *)
Theorem maybeSpawnAutoRipple_throttle
    (pg : Page) (timestamp : Q) (st : State) (calls : list (Page * Q))
    (ts : list Q) :
  lastAutoRippleTime st == 0 \/ 2000 <= lastAutoRippleTime st ->
  (autoRipplesChecked pg = false \/ recentQuakes pg = [] ->
   maybeSpawnAutoRipple pg timestamp st = Some st) /\
  (timestamp - lastAutoRippleTime st < 2000 ->
   maybeSpawnAutoRipple pg timestamp st = Some st) /\
  (autoRipplesChecked pg = true -> recentQuakes pg <> [] ->
   2000 <= timestamp - lastAutoRippleTime st ->
   exists quake,
     recentQuakes pg !! (autoRippleIndex st mod length (recentQuakes pg))%nat
     = Some quake /\
     maybeSpawnAutoRipple pg timestamp st
     = Some {| mapOffsetX := mapOffsetX st;
               isDragging := isDragging st;
               ripples := createRippleFromWorld (q_baseX quake)
                            (q_baseY quake) (q_mag quake) (q_depth quake)
                            (speedSlider pg) true (ripples st);
               autoRippleIndex := autoRippleIndex st + 1;
               lastAutoRippleTime := timestamp |}) /\
  (forall i j ti ci tj cj,
      (i < j)%nat ->
      spawnLog calls st !! i = Some (ti, ci) ->
      spawnLog calls st !! j = Some (tj, cj) ->
      lastAutoRippleTime st + 2000 <= ti /\ ti + 2000 <= tj) /\
  (forall k t c,
      spawnLog calls st !! k = Some (t, c) ->
      c = (autoRippleIndex st + k)%nat) /\
  (exists st',
      autoRun calls st = Some st' /\
      length (ripples st')
      = (length (ripples st) + length (spawnLog calls st))%nat /\
      autoRippleIndex st'
      = (autoRippleIndex st + length (spawnLog calls st))%nat /\
      (lastAutoRippleTime st' == 0 \/ 2000 <= lastAutoRippleTime st')) /\
  (exists st',
      autoRun (map (pair pg) ts) st = Some st' /\
      ripples st'
      = replay pg (ripples st)
          (seq (autoRippleIndex st)
               (length (spawnLog (map (pair pg) ts) st)))).
Proof.
  intros HT.
  change 2000 with AUTO_RIPPLE_INTERVAL in *.
  repeat apply conj.
  - intros H.
    destruct (maybeSpawnAutoRipple_cases pg timestamp st)
      as [[_ E] | (C & Q & _)]; [exact E|].
    destruct H; congruence.
  - intros H.
    destruct (maybeSpawnAutoRipple_cases pg timestamp st)
      as [[_ E] | (_ & _ & T & _)]; [exact E | lra].
  - intros C Q T.
    destruct (maybeSpawnAutoRipple_cases pg timestamp st)
      as [[[B | [B | B]] _] | (_ & _ & _ & q & Hq & E)];
      [congruence | congruence | lra |].
    exists q. split; [exact Hq | exact E].
  - intros i j ti ci tj cj Hij Hi Hj.
    exact (Spaced_pairs _ _ i j ti ci tj cj
             (proj1 (spawnLog_spaced calls st)) Hij Hi Hj).
  - intros k t c Hk.
    pose proof (proj2 (spawnLog_spaced calls st)) as M.
    assert (L : map snd (spawnLog calls st) !! k = Some c)
      by (rewrite list_lookup_fmap, Hk; reflexivity).
    rewrite M in L. apply lookup_seq in L. lia.
  - destruct (autoRun_total calls st) as (st' & R & L & C).
    exists st'. repeat split; try assumption.
    apply (autoRun_Throttled calls st st' HT R).
  - apply autoRun_replay.
Qed.

(** [maybeSpawnAutoRipple_throttle] on the example pages: the muted call, the
    call before the interval has passed, the spawning call at 2100, and the
    two spawns of [exampleTicks]. *)
Lemma maybeSpawnAutoRipple_throttle_witness :
  (lastAutoRippleTime initialState == 0 \/
   2000 <= lastAutoRippleTime initialState) /\
  ((autoRipplesChecked mutedPage = false \/ recentQuakes mutedPage = []) /\
   maybeSpawnAutoRipple mutedPage 2100 initialState = Some initialState) /\
  (500 - lastAutoRippleTime initialState < 2000 /\
   maybeSpawnAutoRipple examplePage 500 initialState = Some initialState) /\
  ((autoRipplesChecked examplePage = true /\ recentQuakes examplePage <> [] /\
    2000 <= 2100 - lastAutoRippleTime initialState) /\
   exists quake,
     recentQuakes examplePage
       !! (autoRippleIndex initialState mod length (recentQuakes examplePage))%nat
     = Some quake /\
     maybeSpawnAutoRipple examplePage 2100 initialState
     = Some {| mapOffsetX := mapOffsetX initialState;
               isDragging := isDragging initialState;
               ripples := createRippleFromWorld (q_baseX quake)
                            (q_baseY quake) (q_mag quake) (q_depth quake)
                            (speedSlider examplePage) true
                            (ripples initialState);
               autoRippleIndex := autoRippleIndex initialState + 1;
               lastAutoRippleTime := 2100 |}) /\
  (((0 < 1)%nat /\
    spawnLog exampleTicks initialState !! 0%nat = Some (2100, 0%nat) /\
    spawnLog exampleTicks initialState !! 1%nat = Some (4300, 1%nat)) /\
   lastAutoRippleTime initialState + 2000 <= 2100 /\ 2100 + 2000 <= 4300) /\
  (spawnLog exampleTicks initialState !! 1%nat = Some (4300, 1%nat) /\
   1%nat = (autoRippleIndex initialState + 1)%nat).
Proof.
  assert (HT : lastAutoRippleTime initialState == 0 \/
               2000 <= lastAutoRippleTime initialState)
    by (left; reflexivity).
  destruct (maybeSpawnAutoRipple_throttle mutedPage 2100 initialState [] [] HT)
    as (Muted & _).
  destruct (maybeSpawnAutoRipple_throttle examplePage 500 initialState [] []
              HT) as (_ & Early & _).
  destruct (maybeSpawnAutoRipple_throttle examplePage 2100 initialState
              exampleTicks [] HT) as (_ & _ & Fire & Apart & Cursor & _).
  split; [exact HT|].
  repeat apply conj.
  - left; reflexivity.
  - apply Muted. left; reflexivity.
  - reflexivity.
  - apply Early. reflexivity.
  - reflexivity.
  - discriminate.
  - discriminate.
  - apply Fire; [reflexivity | discriminate | discriminate].
  - apply Nat.lt_0_1.
  - reflexivity.
  - reflexivity.
  - apply (Apart 0%nat 1%nat 2100 0%nat 4300 1%nat);
      [apply Nat.lt_0_1 | reflexivity | reflexivity].
  - apply (Apart 0%nat 1%nat 2100 0%nat 4300 1%nat);
      [apply Nat.lt_0_1 | reflexivity | reflexivity].
  - reflexivity.
  - apply (Cursor 1%nat 4300 1%nat). reflexivity.
Defined.

(** C7, as the specification states it, fails on the code: the variable
    [lastAutoRippleTime] starts at 0, so the call at the timestamp 0 is within
    the interval and does not spawn.  On [examplePage] (enabled, three events)
    the calls at 0, 500, 2100, 4300 spawn at 2100 and 4300 only, from the
    events 0 and 1. *)
Lemma auto_scenario_no_spawn_at_zero :
  autoRipplesChecked examplePage = true /\
  length (recentQuakes examplePage) = 3%nat /\
  maybeSpawnAutoRipple examplePage 0 initialState = Some initialState /\
  spawnLog exampleTicks initialState = [(2100, 0%nat); (4300, 1%nat)] /\
  spawnLog exampleTicks initialState
  <> [(0, 0%nat); (2100, 1%nat); (4300, 2%nat)].
Proof. repeat split. discriminate. Qed.

(** C7, amended.  With the checkbox on and a feed of three events, the calls
    at the timestamps 0, 500, 2100 and 4300 from the initial state spawn
    exactly twice, at 2100 from the event 0 and at 4300 from the event 1;
    the calls at 0 and at 500 change nothing. *)
Theorem auto_scenario (pg : Page) (q0 q1 q2 : Quake) :
  autoRipplesChecked pg = true ->
  recentQuakes pg = [q0; q1; q2] ->
  let calls := map (pair pg) [0; 500; 2100; 4300] in
  maybeSpawnAutoRipple pg 0 initialState = Some initialState /\
  maybeSpawnAutoRipple pg 500 initialState = Some initialState /\
  spawnLog calls initialState = [(2100, 0%nat); (4300, 1%nat)] /\
  autoRun calls initialState
  = Some {| mapOffsetX := 0; isDragging := false;
            ripples :=
              createRippleFromWorld (q_baseX q1) (q_baseY q1) (q_mag q1)
                (q_depth q1) (speedSlider pg) true
                (createRippleFromWorld (q_baseX q0) (q_baseY q0) (q_mag q0)
                   (q_depth q0) (speedSlider pg) true []);
            autoRippleIndex := 2;
            lastAutoRippleTime := 4300 |}.
Proof.
  intros C Q calls. subst calls.
  assert (E0 : maybeSpawnAutoRipple pg 0 initialState = Some initialState)
    by (unfold maybeSpawnAutoRipple; rewrite C, Q; reflexivity).
  assert (E1 : maybeSpawnAutoRipple pg 500 initialState = Some initialState)
    by (unfold maybeSpawnAutoRipple; rewrite C, Q; reflexivity).
  assert (E2 : maybeSpawnAutoRipple pg 2100 initialState
               = Some (autoSpawned pg 2100 q0 initialState))
    by (unfold maybeSpawnAutoRipple; rewrite C, Q; reflexivity).
  assert (E3 : maybeSpawnAutoRipple pg 4300
                 (autoSpawned pg 2100 q0 initialState)
               = Some (autoSpawned pg 4300 q1
                         (autoSpawned pg 2100 q0 initialState)))
    by (unfold maybeSpawnAutoRipple; rewrite C, Q; reflexivity).
  repeat apply conj; [exact E0 | exact E1 | |].
  - simpl. rewrite E0. simpl. rewrite E1. simpl. rewrite E2. simpl.
    rewrite E3. simpl. reflexivity.
  - simpl. rewrite E0. simpl. rewrite E1. simpl. rewrite E2. simpl.
    rewrite E3. reflexivity.
Qed.

(** [auto_scenario] on [examplePage]. *)
Lemma auto_scenario_witness :
  (autoRipplesChecked examplePage = true /\
   recentQuakes examplePage
   = [mkQuake 100 50 5 10; mkQuake 200 60 7 300; mkQuake 790 70 9 0]) /\
  spawnLog (map (pair examplePage) [0; 500; 2100; 4300]) initialState
  = [(2100, 0%nat); (4300, 1%nat)].
Proof.
  split; [split; reflexivity|].
  apply (auto_scenario examplePage (mkQuake 100 50 5 10)
           (mkQuake 200 60 7 300) (mkQuake 790 70 9 0)); reflexivity.
Defined.

(** ** The frame *)

Lemma createRippleFromWorld_Sound bx by' m d s fa rs :
  Forall Sound rs -> Forall Sound (createRippleFromWorld bx by' m d s fa rs).
Proof.
  intros H. rewrite createRippleFromWorld_app. apply Forall_app. split; [exact H|].
  apply Forall_singleton.
  destruct (spawned_fields bx by' m d s fa [] _ eq_refl) as (_ & _ & M & _).
  unfold Sound. lra.
Qed.

Lemma maybeSpawnAutoRipple_Sound pg t st st1 :
  maybeSpawnAutoRipple pg t st = Some st1 ->
  Forall Sound (ripples st) -> Forall Sound (ripples st1).
Proof.
  intros E H.
  destruct (maybeSpawnAutoRipple_cases pg t st)
    as [[_ E'] | (_ & _ & _ & q & _ & E')];
    rewrite E' in E; injection E as E; subst st1; [exact H|].
  apply createRippleFromWorld_Sound, H.
Qed.

Lemma maybeSpawnAutoRipple_total pg t st :
  exists st1, maybeSpawnAutoRipple pg t st = Some st1.
Proof.
  destruct (maybeSpawnAutoRipple_cases pg t st)
    as [[_ E] | (_ & _ & _ & q & _ & E)]; eauto.
Qed.

(** The frames that return. *)
Lemma drawFrame_Some pg t st f :
  drawFrame pg t st = Some f <->
  exists (off : Q) (st1 : State),
    normalizeOffset (canvas_width pg) (mapOffsetX st) = Some off /\
    (showQuakesChecked pg = true ->
     Forall (fun quake => markerThrows quake = false) (recentQuakes pg)) /\
    maybeSpawnAutoRipple pg t st = Some st1 /\
    Forall Sound (ripples st1) /\ Drawable (ripples st1) /\
    f = mkFrame (withRipples st1 (pruned (ripples st1)))
          ((if showQuakesChecked pg
            then map (drawMarker (canvas_width pg) off) (recentQuakes pg)
            else [])
           ++ map (drawRipple (canvas_width pg) off)
                (rev (pruned (ripples st1))))
          (rev (imap pair (ripples st1))).
Proof.
  unfold drawFrame, drawFrameRun.
  destruct (normalizeOffset _ _) as [off|];
    [|split; [discriminate | intros (? & ? & [=] & _)]].
  destruct (maybeSpawnAutoRipple_total pg t st) as [st1 E1]. rewrite E1.
  assert (L : forall markers p,
             rippleLoop (canvas_width pg) off (length (ripples st1))
               (mkPass (ripples st1) markers []) = Returned p <->
             Forall Sound (ripples st1) /\ Drawable (ripples st1) /\
             p = mkPass (pruned (ripples st1))
                   (markers ++ map (drawRipple (canvas_width pg) off)
                                 (rev (pruned (ripples st1))))
                   (rev (imap pair (ripples st1)))).
  { intros markers p.
    pose proof (rippleLoop_Returned (canvas_width pg) off (ripples st1) []
                  markers [] p) as L.
    rewrite !app_nil_r in L. exact L. }
  destruct (showQuakesChecked pg).
  - destruct (drawMarkers _ _ _ _) as [markers | d |] eqn:M.
    + apply drawMarkers_Returned in M as [M ->]. simpl.
      destruct (rippleLoop _ _ _ _) as [p | p |] eqn:R.
      * apply L in R as (S & D & ->). simpl. split.
        -- intros [= <-]. exists off, st1. repeat split; auto.
        -- intros (? & ? & [= <-] & _ & [= <-] & _ & _ & ->). reflexivity.
      * split; [discriminate|].
        intros (? & ? & [= <-] & _ & [= <-] & S & D & _).
        assert (R' : rippleLoop (canvas_width pg) off (length (ripples st1))
                       (mkPass (ripples st1)
                          (map (drawMarker (canvas_width pg) off)
                             (recentQuakes pg)) [])
                     = Returned
                         (mkPass (pruned (ripples st1))
                            (map (drawMarker (canvas_width pg) off)
                               (recentQuakes pg)
                             ++ map (drawRipple (canvas_width pg) off)
                                  (rev (pruned (ripples st1))))
                            (rev (imap pair (ripples st1)))))
          by (apply L; auto).
        simpl in R. congruence.
      * split; [discriminate|].
        intros (? & ? & [= <-] & _ & [= <-] & S & _).
        exfalso.
        apply (rippleLoop_finite (canvas_width pg) off (ripples st1) []
                 ([] ++ map (drawMarker (canvas_width pg) off)
                          (recentQuakes pg)) [] S).
        rewrite app_nil_r. exact R.
    + split; [discriminate|]. intros (? & ? & _ & Mk & _).
      assert (M' : drawMarkers (canvas_width pg) off (recentQuakes pg) []
                   = Returned ([] ++ map (drawMarker (canvas_width pg) off)
                                       (recentQuakes pg)))
        by (apply drawMarkers_Returned; auto).
      congruence.
    + exfalso. exact (drawMarkers_finite _ _ _ _ M).
  - destruct (rippleLoop _ _ _ _) as [p | p |] eqn:R.
    + apply L in R as (S & D & ->). simpl. split.
      * intros [= <-]. exists off, st1. repeat split; auto. discriminate.
      * intros (? & ? & [= <-] & _ & [= <-] & _ & _ & ->). reflexivity.
    + split; [discriminate|].
      intros (? & ? & [= <-] & _ & [= <-] & S & D & _).
      assert (R' : rippleLoop (canvas_width pg) off (length (ripples st1))
                     (mkPass (ripples st1) [] [])
                   = Returned
                       (mkPass (pruned (ripples st1))
                          ([] ++ map (drawRipple (canvas_width pg) off)
                                   (rev (pruned (ripples st1))))
                          (rev (imap pair (ripples st1)))))
        by (apply L; auto).
      congruence.
    + split; [discriminate|].
      intros (? & ? & [= <-] & _ & [= <-] & S & _).
      exfalso.
      apply (rippleLoop_finite (canvas_width pg) off (ripples st1) [] [] [] S).
      rewrite app_nil_r. exact R.
Qed.

Lemma Drawable_growing rs :
  Forall (fun r => 0 <= radius r + speed r /\
                   isColor (hexToRgba (baseColor r) (opacity r)) = true) rs ->
  Drawable rs.
Proof.
  intros H. unfold Drawable. apply Forall_forall. intros r Hr.
  apply list_elem_of_In, In_pruned in Hr as (r0 & H0 & -> & _).
  apply ringThrows_false. simpl.
  rewrite Forall_forall in H. apply H, list_elem_of_In, H0.
Qed.

(** C1, as it is stated, fails on the code: a frame does not visit every
    ripple when a drawing call throws.  On a store of two ripples, the older
    spawned with the speed multiplier 1 and the newer with -1, the loop reads
    the index 1, gives that ripple a negative radius, and
    [createRadialGradient] throws on it: the index 0 is never read and its
    ripple is not aged. *)
Lemma frame_aborts_at_shrinking_ripple :
  length shrinkingStore = 2%nat /\
  exists f : Frame,
    drawFrameRun mutedPage 16 (withRipples initialState shrinkingStore)
    = Threw f /\
    map fst (f_reads f) = [1%nat] /\
    ripples (f_state f) !! 0%nat = shrinkingStore !! 0%nat /\
    (exists r, ripples (f_state f) !! 1%nat = Some r /\ radius r < 0) /\
    drawFrame mutedPage 16 (withRipples initialState shrinkingStore) = None.
Proof.
  split; [reflexivity|]. eexists. split; [vm_compute; reflexivity|].
  split; [reflexivity|]. split; [reflexivity|].
  split; [eexists; split; reflexivity | reflexivity].
Qed.

(** C1, amended.  In every frame that returns (no drawing call throws) the
    loop has read every index of the store, as [maybeSpawnAutoRipple] left
    it, exactly once, from the last to the first, and each read has returned
    the ripple that was at that index when the loop began, so no element is
    skipped or met twice because of [splice].  The store the frame leaves
    holds, in their order, the ripples updated by [radius := radius + speed]
    and [opacity := 1 - radius / maxRadius] for which neither
    [radius >= maxRadius] nor [opacity <= 0] holds after the update, and no
    other; their radii are not negative.  A frame returns when the canvas has
    a whole positive width, the speed slider is not negative, no marker to
    draw has a negative radius and no ripple has a zero maximal radius, would
    get a negative radius or has a colour that is none. *)
Theorem drawFrame_ripples (pg : Page) (timestamp : Q) (st : State) :
  (forall f : Frame,
      drawFrame pg timestamp st = Some f ->
      exists st1 : State,
        maybeSpawnAutoRipple pg timestamp st = Some st1 /\
        f_reads f = rev (imap pair (ripples st1)) /\
        ripples (f_state f)
        = List.filter (fun r => negb (expired r)) (map aged (ripples st1)) /\
        Forall (fun r => 0 <= radius r) (ripples (f_state f))) /\
  (Whole (canvas_width pg) -> 0 < canvas_width pg -> 0 <= speedSlider pg ->
   (showQuakesChecked pg = true ->
    Forall (fun quake => 0 <= 2 + q_mag quake) (recentQuakes pg)) ->
   Forall (fun r => ~ maxRadius r == 0 /\ 0 <= radius r + speed r /\
                    isColor (hexToRgba (baseColor r) (opacity r)) = true)
          (ripples st) ->
   exists f : Frame, drawFrame pg timestamp st = Some f) /\
  (forall (w offset : Q) (d : list Draw) (v : list (nat * Ripple))
          (p : Pass),
      rippleLoop w offset (length (ripples st)) (mkPass (ripples st) d v)
      = Returned p ->
      let kept :=
        List.filter (fun r => negb (expired r)) (map aged (ripples st)) in
      p = mkPass kept
                 (d ++ map (drawRipple w offset) (rev kept))
                 (v ++ rev (imap pair (ripples st)))) /\
  (forall r, expired r = true <-> maxRadius r <= radius r \/ opacity r <= 0) /\
  (forall r, age r = Some (aged r) \/ maxRadius r == 0) /\
  (forall r,
      radius (aged r) = radius r + speed r /\
      opacity (aged r) = 1 - (radius r + speed r) / maxRadius r /\
      maxRadius (aged r) = maxRadius r /\ speed (aged r) = speed r).
Proof.
  repeat apply conj.
  - intros f Ef. apply drawFrame_Some in Ef
      as (off & st1 & _ & _ & E1 & _ & D & ->).
    exists st1. split; [exact E1|]. split; [reflexivity|].
    split; [reflexivity|]. simpl.
    eapply Forall_impl; [exact D|]. intros r T.
    apply ringThrows_false in T as [T _]. exact T.
  - intros _ Hw Hs Hm HS.
    destruct (normalizeOffset_total (canvas_width pg) (mapOffsetX st) Hw)
      as (off & EO & _).
    destruct (maybeSpawnAutoRipple_total pg timestamp st) as [st1 E1].
    assert (G : Forall (fun r =>
                          ~ maxRadius r == 0 /\ 0 <= radius r + speed r /\
                          isColor (hexToRgba (baseColor r) (opacity r)) = true)
                       (ripples st1)).
    { destruct (maybeSpawnAutoRipple_cases pg timestamp st)
        as [[_ E'] | (_ & _ & _ & q & _ & E')];
        rewrite E' in E1; injection E1 as E1; subst st1; [exact HS|].
      simpl. rewrite createRippleFromWorld_app. apply Forall_app.
      split; [exact HS|]. apply Forall_singleton.
      destruct (spawned_fields (q_baseX q) (q_baseY q) (q_mag q) (q_depth q)
                  (speedSlider pg) true [] _ eq_refl)
        as (R & _ & M & _ & k & K1 & _ & K & _).
      rewrite R, K. split; [lra|]. split; [nra | reflexivity]. }
    eexists. apply drawFrame_Some. exists off, st1.
    split; [exact EO|]. split.
    { intros Sh. eapply Forall_impl; [exact (Hm Sh)|].
      intros q Hq. apply NumFacts.ltb_false. exact Hq. }
    split; [exact E1|]. split.
    { eapply Forall_impl; [exact G|]. intros r [H _]. exact H. }
    split; [|reflexivity].
    apply Drawable_growing.
    eapply Forall_impl; [exact G|]. intros r [_ H]. exact H.
  - intros w offset d v p E kept. subst kept.
    pose proof (rippleLoop_Returned w offset (ripples st) [] d v p) as L.
    rewrite !app_nil_r in L. apply L in E as (_ & _ & ->). reflexivity.
  - apply expired_Decayed.
  - intros r. destruct (Qeq_dec (maxRadius r) 0) as [Z | Z]; [right; exact Z|].
    left. apply age_aged, Z.
  - intros r. repeat split.
Qed.

(** [drawFrame_ripples] on [exampleState]: the frame at the timestamp 500
    returns, reads the indices 2, 1, 0 and leaves the first and the third
    ripple. *)
Lemma drawFrame_ripples_witness :
  (Whole (canvas_width examplePage) /\
   0 < canvas_width examplePage /\ 0 <= speedSlider examplePage /\
   Forall (fun quake => 0 <= 2 + q_mag quake) (recentQuakes examplePage) /\
   Forall (fun r => ~ maxRadius r == 0 /\ 0 <= radius r + speed r /\
                    isColor (hexToRgba (baseColor r) (opacity r)) = true)
          (ripples exampleState)) /\
  exists f : Frame,
    drawFrame examplePage 500 exampleState = Some f /\
    map fst (f_reads f) = [2%nat; 1%nat; 0%nat] /\
    map baseX (ripples (f_state f)) = [10; 50] /\
    ripples (f_state f)
    = List.filter (fun r => negb (expired r))
        (map aged (ripples exampleState)).
Proof.
  assert (Hm : Forall (fun quake => 0 <= 2 + q_mag quake)
                      (recentQuakes examplePage))
    by (repeat constructor; discriminate).
  assert (H : Forall (fun r =>
                        ~ maxRadius r == 0 /\ 0 <= radius r + speed r /\
                        isColor (hexToRgba (baseColor r) (opacity r)) = true)
                     (ripples exampleState))
    by (repeat constructor; discriminate).
  assert (W : Whole (canvas_width examplePage)) by whole 800%Z.
  destruct (drawFrame_ripples examplePage 500 exampleState)
    as (Done & Returns & _).
  split; [repeat split; try assumption; discriminate|].
  destruct Returns as (f & Ef);
    [exact W | reflexivity | discriminate | intros _; exact Hm | exact H |].
  destruct (Done f Ef) as (st1 & E1 & Hr & Hs & _).
  exists f. injection E1 as <-.
  split; [exact Ef|]. split; [rewrite Hr; reflexivity|].
  split; [rewrite Hs; reflexivity | exact Hs].
Defined.
(** ** Strength of a quake *)

(** C8, as the specification states it, fails on the code: with the speed
    multiplier 0 both ripples have the growth rate 0, so the growth rate of
    the magnitude 9, depth 0 ripple is not strictly the greater. *)
Lemma growth_rate_not_greater_at_zero_speed :
  exists r9 r3 : Ripple,
    createRippleFromWorld 0 0 9 0 0 false [] = [r9] /\
    createRippleFromWorld 0 0 3 700 0 false [] = [r3] /\
    speed r9 == 0 /\ speed r3 == 0 /\ ~ speed r3 < speed r9.
Proof.
  eexists. eexists. split; [reflexivity|]. split; [reflexivity|].
  simpl. repeat split. discriminate.
Qed.

(** On binary64 numbers the growth rates are not ordered strictly at the
    ends of the range either: with the speed multiplier 1.7e308 both products
    overflow to infinity, with 5e-324 both are 5e-324. *)
Example growth_rates_meet_at_the_ends :
  (exists r9 r3 : B64.Ripple,
      B64.createRippleFromWorld 0 0 9 0 1.7e308 false [] = [r9] /\
      B64.createRippleFromWorld 0 0 3 700 1.7e308 false [] = [r3] /\
      (B64.speed r3 <? B64.speed r9)%float = false /\
      (B64.maxRadius r3 <? B64.maxRadius r9)%float = true) /\
  (exists r9 r3 : B64.Ripple,
      B64.createRippleFromWorld 0 0 9 0 5e-324 false [] = [r9] /\
      B64.createRippleFromWorld 0 0 3 700 5e-324 false [] = [r3] /\
      (B64.speed r3 <? B64.speed r9)%float = false).
Proof.
  split; eexists; eexists; (split; [reflexivity|]); (split; [reflexivity|]);
    repeat split.
Qed.

(** C8, amended.  A ripple spawned with the magnitude 9 and the depth 0 has
    a strictly greater maximal radius than one spawned with the magnitude 3
    and the depth 700, for every speed multiplier; its growth rate is not
    smaller for every speed multiplier that is not negative, and strictly
    greater for every speed multiplier between 1e-300 and 1e300. *)
Theorem stronger_quake_larger_faster
    (bx by' bx' by'' speedMultiplier : Q) (fa fa' : bool)
    (rs rs' : list Ripple) :
  exists r9 r3 : Ripple,
    createRippleFromWorld bx by' 9 0 speedMultiplier fa rs = rs ++ [r9] /\
    createRippleFromWorld bx' by'' 3 700 speedMultiplier fa' rs' = rs' ++ [r3] /\
    maxRadius r3 < maxRadius r9 /\
    (0 <= speedMultiplier -> speed r3 <= speed r9) /\
    (1e-300 <= speedMultiplier -> speedMultiplier <= 1e300 ->
     speed r3 < speed r9).
Proof.
  eexists. eexists. split; [reflexivity|]. split; [reflexivity|].
  simpl. split; [reflexivity|].
  change (Num.max 3 (Num.min 9 9)) with 9.
  change (Num.max 3 (Num.min 9 3)) with 3.
  assert (A : (9 - 3) / 6 == 1) by reflexivity.
  assert (B : (3 - 3) / 6 == 0) by reflexivity.
  rewrite A, B. split; intros H; [lra|]. intros _.
  assert (P : 0 < speedMultiplier).
  { eapply Qlt_le_trans; [|exact H]. reflexivity. }
  lra.
Qed.

(** [stronger_quake_larger_faster] at the speed multiplier 1. *)
Lemma stronger_quake_larger_faster_witness :
  (0 <= 1 /\ 1e-300 <= 1 /\ 1 <= 1e300) /\
  exists r9 r3 : Ripple,
    createRippleFromWorld 0 0 9 0 1 false [] = [r9] /\
    createRippleFromWorld 0 0 3 700 1 false [] = [r3] /\
    maxRadius r3 < maxRadius r9 /\ speed r3 <= speed r9 /\
    speed r3 < speed r9.
Proof.
  split; [repeat split; discriminate|].
  destruct (stronger_quake_larger_faster 0 0 0 0 1 false false [] [])
    as (r9 & r3 & E9 & E3 & M & W & S).
  exists r9, r3. repeat split; [exact E9 | exact E3 | exact M | |].
  - apply W. discriminate.
  - apply S; discriminate.
Defined.

(** ** Lifecycle: the store between frames *)

Lemma pruned_Forall (P : Ripple -> Prop) rs :
  (forall r, P r -> expired (aged r) = false -> P (aged r)) ->
  Forall P rs -> Forall P (pruned rs).
Proof.
  intros Step H. induction H as [|r rs Hr _ IH]; [constructor|].
  rewrite pruned_cons. destruct (expired (aged r)) eqn:E; simpl; [exact IH|].
  constructor; [apply Step; assumption | exact IH].
Qed.

Lemma spawned_WellBuilt bx by' m d s fa rs :
  Forall WellBuilt rs ->
  Forall WellBuilt (createRippleFromWorld bx by' m d s fa rs).
Proof.
  intros H. rewrite createRippleFromWorld_app. apply Forall_app.
  split; [exact H|]. apply Forall_singleton.
  destruct (spawned_fields bx by' m d s fa [] _ eq_refl)
    as (_ & _ & M1 & M2 & _).
  destruct (max_min_clamp 3 9 m) as (A & B & _); [discriminate|].
  unfold WellBuilt. simpl in *.
  set (mag := Num.max 3 (Num.min 9 m)) in *.
  assert (Hm : (mag - 3) / 6 == (mag - 3) * (1 # 6)) by field.
  repeat split; try assumption; try (rewrite Hm; lra).
Qed.


(** Whatever the speed multipliers, a reachable store holds ripples as
    [createRippleFromWorld] builds them. *)
Lemma StoreReachable_WellBuilt ok rs :
  StoreReachable ok rs -> Forall WellBuilt rs.
Proof.
  induction 1 as [|rs bx by' m d s fa _ IH Hs|rs w offset p _ IH E].
  - constructor.
  - apply spawned_WellBuilt, IH.
  - apply advanceAndPrune_Some in E as (_ & _ & ->). simpl.
    apply pruned_Forall; [|exact IH]. intros r H _. exact H.
Qed.


(** A ripple that a completed pass leaves has not decayed, and its ring was
    accepted. *)
Lemma survivor_Live r0 :
  expired (aged r0) = false -> ringThrows (aged r0) = false -> Live (aged r0).
Proof.
  intros E T. apply ringThrows_false in T as [T _].
  unfold expired in E. apply orb_false_iff in E as [E1 E2].
  apply NumFacts.geb_false in E1. apply NumFacts.leb_false in E2.
  repeat split; assumption.
Qed.

Lemma Drawable_Live rs : Drawable rs -> Forall Live (pruned rs).
Proof.
  intros D. apply Forall_forall. intros r Hr.
  unfold Drawable in D. rewrite Forall_forall in D. pose proof (D r Hr) as T.
  apply list_elem_of_In, In_pruned in Hr as (r0 & _ & -> & E).
  apply survivor_Live; assumption.
Qed.

Lemma StoreReachable_Live ok rs : StoreReachable ok rs -> Forall Live rs.
Proof.
  induction 1 as [|rs bx by' m d s fa _ IH Hs|rs w offset p _ IH E].
  - constructor.
  - rewrite createRippleFromWorld_app. apply Forall_app. split; [exact IH|].
    apply Forall_singleton.
    destruct (spawned_fields bx by' m d s fa [] _ eq_refl)
      as (R & O & M & _).
    unfold Live. rewrite R, O. repeat split; lra.
  - apply advanceAndPrune_Some in E as (_ & D & ->). simpl.
    apply Drawable_Live, D.
Qed.

(** A frame that returns is a possible spawn followed by a completed pass; a
    click is a spawn. *)
Lemma Reachable_StoreReachable ok st :
  Reachable ok st -> StoreReachable ok (ripples st).
Proof.
  induction 1 as [|st x b _ IH|st pg x y st' _ IH Hs E|st pg t f _ IH Hs E].
  - constructor.
  - exact IH.
  - unfold onClick in E. destruct (isDragging st).
    + injection E as <-. exact IH.
    + destruct (normalizeOffset _ _) as [off|]; [|discriminate].
      injection E as <-. simpl. apply SR_spawn; assumption.
  - apply drawFrame_Some in E as (off & st1 & _ & _ & E1 & S & D & ->).
    simpl.
    assert (R1 : StoreReachable ok (ripples st1)).
    { destruct (maybeSpawnAutoRipple_cases pg t st)
        as [[_ E'] | (_ & _ & _ & q & _ & E')];
        rewrite E' in E1; injection E1 as <-; [exact IH|].
      simpl. apply SR_spawn; assumption. }
    apply (SR_pass ok (ripples st1) (canvas_width pg) off
             (mkPass (pruned (ripples st1))
                (map (drawRipple (canvas_width pg) off)
                   (rev (pruned (ripples st1))))
                (rev (imap pair (ripples st1)))) R1).
    apply advanceAndPrune_Some. auto.
Qed.

(** C10. In every store reachable by calls of [createRippleFromWorld],
    whatever their arguments, and by completed passes of the ripple loop, and
    so in every state reachable through pointer events, clicks and frames
    that return, every ripple has [0 <= radius < maxRadius] and
    [opacity > 0]: a new ripple has the radius 0, the opacity 1 and a maximal
    radius of at least 80, and a pass that completes has removed the ripples
    that decayed and has drawn the others, which the canvas accepts only with
    a radius that is not negative. *)
Theorem store_invariant
    (ok : Q -> Prop) (rs : list Ripple) (st : State) :
  (StoreReachable ok rs ->
   Forall (fun r => 0 <= radius r /\ radius r < maxRadius r /\ 0 < opacity r)
          rs) /\
  (Reachable ok st ->
   Forall (fun r => 0 <= radius r /\ radius r < maxRadius r /\ 0 < opacity r)
          (ripples st)).
Proof.
  split; intros H.
  - apply (StoreReachable_Live ok rs H).
  - apply (StoreReachable_Live ok), Reachable_StoreReachable, H.
Qed.

(** [store_invariant] on the store and the state left by a click on
    [examplePage] followed by a frame at the timestamp 2100, which spawns an
    automatic ripple and ages both. *)
Lemma store_invariant_witness :
  exists (st : State) (f : Frame),
    onClick examplePage 10 20 initialState = Some st /\
    drawFrame examplePage 2100 st = Some f /\
    length (ripples (f_state f)) = 2%nat /\
    StoreReachable (fun _ => True) (ripples (f_state f)) /\
    Reachable (fun _ => True) st /\
    Forall (fun r => 0 <= radius r /\ radius r < maxRadius r /\ 0 < opacity r)
           (ripples (f_state f)) /\
    Forall (fun r => 0 <= radius r /\ radius r < maxRadius r /\ 0 < opacity r)
           (ripples st).
Proof.
  destruct (onClick examplePage 10 20 initialState) as [st|] eqn:E1;
    [|vm_compute in E1; discriminate E1].
  destruct (drawFrame examplePage 2100 st) as [f|] eqn:E2;
    [|vm_compute in E1; injection E1 as E1; subst st;
      vm_compute in E2; discriminate E2].
  exists st, f.
  assert (R0 : Reachable (fun _ => True) st).
  { eapply (Reach_click _ initialState examplePage 10 20 st);
      [apply Reach_init | exact I | exact E1]. }
  assert (R : Reachable (fun _ => True) (f_state f)).
  { eapply (Reach_frame _ st examplePage 2100 f);
      [exact R0 | exact I | exact E2]. }
  split; [reflexivity|]. split; [exact E2|]. split.
  - pose proof E1 as E1'. vm_compute in E1'. injection E1' as E1'. subst st.
    pose proof E2 as E2'. vm_compute in E2'. injection E2' as E2'. subst f.
    reflexivity.
  - split; [apply Reachable_StoreReachable, R|]. split; [exact R0|]. split.
    + apply (store_invariant (fun _ => True) (ripples (f_state f)) st).
      apply Reachable_StoreReachable, R.
    + apply (store_invariant (fun _ => True) [] st), R0.
Defined.

(** ** Lifecycle: how long a ripple lives *)


(** Nor does every ripple decay.  A ripple spawned with the magnitude 3 and
    the speed multiplier 1e-15 grows by 6.6e-16 a frame; once its radius is 8,
    where two neighbouring binary64 numbers are 1.8e-15 apart, the sum
    [radius + speed] is rounded back to 8, and the ripple stays in the store
    as it is, pass after pass. *)
Example radius_stalls :
  exists r : B64.Ripple,
    B64.createRippleFromWorld 0 0 3 0 1e-15 false [] = [r] /\
    (0 <? B64.speed r)%float = true /\
    exists r' : B64.Ripple,
      B64.passes 800 0 50
        [B64.mkRipple 0 0 8 (B64.maxRadius r) (B64.speed r) (B64.lineWidth r)
                      (B64.baseColor r) 0.9 false]
      = Some [r'] /\
      (B64.radius r' =? 8)%float = true.
Proof.
  eexists. split; [reflexivity|]. split; [reflexivity|].
  eexists. split; [vm_compute; reflexivity | reflexivity].
Qed.


(** * Further properties of the engine *)

(** ** The looping offset *)

Lemma small_multiple_zero (j : Z) (w : Q) :
  0 < w -> - w < inject_Z j * w -> inject_Z j * w < w -> j = 0%Z.
Proof.
  intros Hw L U.
  destruct (Z_lt_le_dec j 1) as [A | A]; [destruct (Z_lt_le_dec (-1) j) as [B | B]|].
  - lia.
  - exfalso. assert (C : inject_Z j <= inject_Z (-1)) by (rewrite <- Zle_Qle; exact B).
    change (inject_Z (-1)) with (- (1)) in C. nra.
  - exfalso. assert (C : inject_Z 1 <= inject_Z j) by (rewrite <- Zle_Qle; exact A).
    change (inject_Z 1) with 1 in C. nra.
Qed.

(** The normalised offset is the only number of [[0, w)] that differs from
    the offset by a whole number of widths. *)
Lemma normalizeOffset_unique (w offsetX r : Q) (k : Z) :
  0 < w -> 0 <= r -> r < w -> r == offsetX + inject_Z k * w ->
  exists r', normalizeOffset w offsetX = Some r' /\ r' == r.
Proof.
  intros Hw R0 Rw Hk.
  destruct (normalizeOffset_total w offsetX Hw) as (r' & E & A & B & k' & Hk').
  exists r'. split; [exact E|].
  assert (Z0 : (k' - k)%Z = 0%Z).
  { apply (small_multiple_zero _ w Hw);
      unfold Z.sub; rewrite inject_Z_plus, inject_Z_opp; lra. }
  assert (K : inject_Z k' == inject_Z k).
  { replace k' with k by lia. reflexivity. }
  rewrite Hk', Hk, K. reflexivity.
Qed.

(** A whole offset on a canvas of whole width is normalised to a whole
    number: no operation of [normalizeOffset] is rounded. *)
Lemma normalizeOffset_Whole (w offsetX r : Q) :
  Whole w -> Whole offsetX -> 0 < w ->
  normalizeOffset w offsetX = Some r -> Whole r.
Proof.
  intros Ww (zo & Eo & _) Hw E.
  destruct (normalizeOffset_total w offsetX Hw) as (r' & E' & A & B & k & Hk).
  rewrite E' in E. injection E as <-.
  pose proof Ww as (zw & Ew & _).
  apply (Whole_in_range r' w (zo + k * zw)); [|exact A|lra|exact Ww].
  rewrite Hk, Eo, Ew, inject_Z_plus, inject_Z_mult. reflexivity.
Qed.

(** X1. On whole numbers, turning the map by a whole number of canvas widths
    does not change the normalised offset, which is a whole number too. *)
Theorem normalizeOffset_periodic (w offsetX : Q) (k : Z) :
  Whole w -> Whole offsetX -> Whole (offsetX + inject_Z k * w) -> 0 < w ->
  exists r1 r2 : Q,
    normalizeOffset w offsetX = Some r1 /\
    normalizeOffset w (offsetX + inject_Z k * w) = Some r2 /\
    r1 == r2 /\ Whole r1.
Proof.
  intros Ww Wo _ Hw.
  destruct (normalizeOffset_total w offsetX Hw) as (r1 & E1 & A & B & k1 & H1).
  destruct (normalizeOffset_unique w (offsetX + inject_Z k * w) r1 (k1 - k)
              Hw A B) as (r2 & E2 & H2).
  { unfold Z.sub. rewrite inject_Z_plus, inject_Z_opp, H1. ring. }
  exists r1, r2. split; [exact E1|]. split; [exact E2|].
  split; [symmetry; exact H2|].
  apply (normalizeOffset_Whole w offsetX r1 Ww Wo Hw E1).
Qed.

(** [normalizeOffset_periodic] on the offset [-5] turned three times. *)
Lemma normalizeOffset_periodic_witness :
  (Whole 800 /\ Whole (-5) /\ Whole (-5 + inject_Z 3 * 800) /\ 0 < 800) /\
  exists r1 r2 : Q,
    normalizeOffset 800 (-5) = Some r1 /\
    normalizeOffset 800 (-5 + inject_Z 3 * 800) = Some r2 /\
    r1 == r2 /\ Whole r1.
Proof.
  assert (W8 : Whole 800) by whole 800%Z.
  assert (W5 : Whole (-5)) by whole (-5)%Z.
  assert (W3 : Whole (-5 + inject_Z 3 * 800)) by whole 2395%Z.
  split; [repeat split; assumption|].
  apply (normalizeOffset_periodic 800 (-5) 3 W8 W5 W3). reflexivity.
Defined.

(** X2. On a canvas of whole width, a whole offset already in [[0, w)] is
    left as it is; and normalising is idempotent on every offset that is
    whole or not negative. *)
Theorem normalizeOffset_idempotent (w offsetX : Q) :
  Whole w -> 0 < w ->
  (Whole offsetX -> 0 <= offsetX -> offsetX < w ->
   exists r : Q, normalizeOffset w offsetX = Some r /\ r == offsetX) /\
  (Whole offsetX \/ 0 <= offsetX ->
   exists r r' : Q,
     normalizeOffset w offsetX = Some r /\
     normalizeOffset w r = Some r' /\ r' == r /\ 0 <= r /\ r < w).
Proof.
  intros _ Hw. split.
  - intros _ A B. apply (normalizeOffset_unique w offsetX offsetX 0 Hw A B).
    change (inject_Z 0) with 0. ring.
  - intros _.
    destruct (normalizeOffset_total w offsetX Hw) as (r & E & A & B & _).
    destruct (normalizeOffset_unique w r r 0 Hw A B) as (r' & E' & H').
    { change (inject_Z 0) with 0. ring. }
    exists r, r'. auto.
Qed.

(** [normalizeOffset_idempotent] on the offsets [300] and [1100.5]. *)
Lemma normalizeOffset_idempotent_witness :
  (Whole 800 /\ 0 < 800 /\ Whole 300 /\ 0 <= 300 /\ 300 < 800 /\
   0 <= 1100.5) /\
  (exists r : Q, normalizeOffset 800 300 = Some r /\ r == 300) /\
  exists r r' : Q,
    normalizeOffset 800 1100.5 = Some r /\
    normalizeOffset 800 r = Some r' /\ r' == r /\ 0 <= r /\ r < 800.
Proof.
  assert (W8 : Whole 800) by whole 800%Z.
  assert (W3 : Whole 300) by whole 300%Z.
  destruct (normalizeOffset_idempotent 800 300 W8 eq_refl) as [Fix _].
  destruct (normalizeOffset_idempotent 800 1100.5 W8 eq_refl) as [_ Idem].
  split; [repeat split; try assumption; discriminate || reflexivity|].
  split; [apply Fix; [exact W3 | discriminate | reflexivity]|].
  apply Idem. right. discriminate.
Defined.

(** ** Projections *)

Lemma projections_stay_on_canvas_aux (s o w : Q) :
  0 <= s -> s <= w -> 0 <= o -> o < w ->
  0 <= toBase s o w /\ toBase s o w <= w.
Proof.
  intros A B C D.
  destruct (toBase_cases s o w) as [[H ->] | [H ->]]; split; lra.
Qed.

Lemma toScreen_toBase_aux (s o w : Q) :
  0 <= s -> s <= w -> 0 <= o -> o < w -> 0 < s ->
  toScreen (toBase s o w) o w == s.
Proof.
  intros A B C D E.
  destruct (toBase_cases s o w) as [[H ->] | [H ->]];
    [destruct (toScreen_cases (s - o + w) o w) as [[G ->] | [G ->]]
    |destruct (toScreen_cases (s - o) o w) as [[G ->] | [G ->]]]; lra.
Qed.

(** On whole numbers the projection to the map stays whole. *)
Lemma toBase_Whole (s o w : Q) :
  Whole s -> Whole o -> Whole w ->
  0 <= s -> s <= w -> 0 <= o -> o < w -> Whole (toBase s o w).
Proof.
  intros Ws Wo Ww A B C D.
  destruct (projections_stay_on_canvas_aux s o w A B C D) as [T0 Tw].
  destruct (Whole_minus_integer s o Ws Wo) as (z & Ez).
  pose proof Ww as (zw & Ew & _).
  destruct (toBase_cases s o w) as [[H E] | [H E]]; rewrite E in *.
  - apply (Whole_in_range _ w (z + zw)); [|exact T0|exact Tw|exact Ww].
    rewrite inject_Z_plus, <- Ez, <- Ew. reflexivity.
  - apply (Whole_in_range _ w z); [exact Ez|exact T0|exact Tw|exact Ww].
Qed.

(** X3. With an offset in [[0, w)], a base abscissa of [[0, w]] is projected
    into [[0, w]], and a screen abscissa of [[0, w]] comes back into
    [[0, w]]: what is on the map is drawn on the canvas, and a click on the
    canvas lands on the map. *)
Theorem projections_stay_on_canvas (x offset w : Q) :
  0 <= x -> x <= w -> 0 <= offset -> offset < w ->
  (0 <= toScreen x offset w /\ toScreen x offset w <= w) /\
  (0 <= toBase x offset w /\ toBase x offset w <= w).
Proof.
  intros A B C D. split.
  - destruct (toScreen_cases x offset w) as [[H ->] | [H ->]]; split; lra.
  - destruct (toBase_cases x offset w) as [[H ->] | [H ->]]; split; lra.
Qed.

(** [projections_stay_on_canvas] on the right edge, with the offset [795]. *)
Lemma projections_stay_on_canvas_witness :
  (0 <= 800 /\ 800 <= 800 /\ 0 <= 795 /\ 795 < 800) /\
  (0 <= toScreen 800 795 800 /\ toScreen 800 795 800 <= 800) /\
  (0 <= toBase 800 795 800 /\ toBase 800 795 800 <= 800).
Proof.
  split; [repeat split; discriminate || reflexivity|].
  apply (projections_stay_on_canvas 800 795 800); discriminate || reflexivity.
Defined.

(** X4. The round trip from the screen, on whole numbers: with a whole
    offset in [[0, w)] and a whole width, a whole screen abscissa of [(0, w]]
    brought back to the map is a whole number, and projected again it is
    where it was.  The left edge is the exception: with a positive offset the
    abscissa 0 comes back as [w]. *)
Theorem toScreen_toBase (s offset w : Q) :
  Whole s -> Whole offset -> Whole w ->
  0 <= s -> s <= w -> 0 <= offset -> offset < w ->
  Whole (toBase s offset w) /\
  (0 < s -> toScreen (toBase s offset w) offset w == s) /\
  (s == 0 -> 0 < offset -> toScreen (toBase s offset w) offset w == w).
Proof.
  intros Ws Wo Ww A B C D.
  split; [apply toBase_Whole; assumption|].
  destruct (toBase_cases s offset w) as [[H ->] | [H ->]];
    [destruct (toScreen_cases (s - offset + w) offset w) as [[G ->] | [G ->]]
    |destruct (toScreen_cases (s - offset) offset w) as [[G ->] | [G ->]]];
    split; intros; lra.
Qed.

(** [toScreen_toBase] inside the canvas and on its left edge. *)
Lemma toScreen_toBase_witness :
  (Whole 100 /\ Whole 0 /\ Whole 300 /\ Whole 800 /\
   0 <= 100 /\ 100 <= 800 /\ 0 <= 300 /\ 300 < 800 /\ 0 < 100) /\
  toScreen (toBase 100 300 800) 300 800 == 100 /\
  (0 <= 0 /\ 0 <= 800 /\ 0 == 0 /\ 0 < 300) /\
  toScreen (toBase 0 300 800) 300 800 == 800.
Proof.
  assert (W1 : Whole 100) by whole 100%Z.
  assert (W0 : Whole 0) by whole 0%Z.
  assert (W3 : Whole 300) by whole 300%Z.
  assert (W8 : Whole 800) by whole 800%Z.
  split; [repeat split; try assumption; discriminate || reflexivity|]. split.
  - apply (toScreen_toBase 100 300 800 W1 W3 W8); discriminate || reflexivity.
  - split; [repeat split; discriminate || reflexivity|].
    apply (toScreen_toBase 0 300 800 W0 W3 W8); discriminate || reflexivity.
Defined.

(** ** Background *)

(** X5. When the map is loaded, with a whole offset in [[0, w)] and a whole
    width, the two copies of the image lie side by side and cover the
    canvas; a point of whole base abscissa [x] in [[0, w]] is drawn by
    [toScreen] at the abscissa [x] of one of the two copies, so markers and
    ripples stay on their place of the map while it turns.  When the map is
    not loaded the canvas is filled. *)
Theorem background_covers_and_aligns (w h offset : Q) :
  Whole offset -> Whole w -> 0 <= offset -> offset < w ->
  (forall c : Q,
      0 <= c -> c <= w ->
      exists ix : Q,
        In (DrawImage ix 0 w h) (drawBackground true w h offset) /\
        ix <= c /\ c <= ix + w /\ Whole ix) /\
  (forall x : Q,
      Whole x -> 0 <= x -> x <= w ->
      exists ix : Q,
        In (DrawImage ix 0 w h) (drawBackground true w h offset) /\
        toScreen x offset w == ix + x) /\
  In (FillRect "#020617" 0 0 w h) (drawBackground false w h offset).
Proof.
  intros Wo Ww A B.
  assert (W1 : Whole (offset - w)).
  { destruct (Whole_minus_integer offset w Wo Ww) as (z & Ez).
    destruct Ww as (zw & Ew & Bw). destruct Wo as (zo & Eo & Bo).
    exists z. split; [exact Ez|].
    assert (L : inject_Z (- zw) <= inject_Z z)
      by (rewrite inject_Z_opp, <- Ez, <- Ew; lra).
    assert (U : inject_Z z <= inject_Z 0)
      by (rewrite <- Ez; change (inject_Z 0) with 0; lra).
    rewrite <- Zle_Qle in L, U. lia. }
  repeat apply conj.
  - intros c C0 Cw. destruct (Qlt_le_dec c offset) as [L | L].
    + exists (offset - w). split; [simpl; auto|]. repeat split; try lra.
      exact W1.
    + exists offset. split; [simpl; auto|]. repeat split; try lra. exact Wo.
  - intros x _ X0 Xw.
    destruct (toScreen_cases x offset w) as [[H ->] | [H ->]].
    + exists (offset - w). split; [simpl; auto|]. ring.
    + exists offset. split; [simpl; auto|]. ring.
  - simpl. auto.
Qed.

(** [background_covers_and_aligns] on the point [10] with the offset [795]. *)
Lemma background_covers_and_aligns_witness :
  (Whole 795 /\ Whole 800 /\ Whole 10 /\
   0 <= 795 /\ 795 < 800 /\ 0 <= 10 /\ 10 <= 800) /\
  (exists ix : Q,
      In (DrawImage ix 0 800 400) (drawBackground true 800 400 795) /\
      ix <= 10 /\ 10 <= ix + 800 /\ Whole ix) /\
  exists ix : Q,
    In (DrawImage ix 0 800 400) (drawBackground true 800 400 795) /\
    toScreen 10 795 800 == ix + 10.
Proof.
  assert (W7 : Whole 795) by whole 795%Z.
  assert (W8 : Whole 800) by whole 800%Z.
  assert (W1 : Whole 10) by whole 10%Z.
  destruct (background_covers_and_aligns 800 400 795 W7 W8)
    as (Cover & Align & _); [discriminate | reflexivity |].
  split; [repeat split; try assumption; discriminate || reflexivity|]. split.
  - apply Cover; discriminate.
  - apply Align; [exact W1 | discriminate | discriminate].
Defined.

(** ** Dragging *)

Lemma mouseMoves_snoc xs x s :
  mouseMoves (xs ++ [x]) s = onMouseMove x (mouseMoves xs s).
Proof. unfold mouseMoves. rewrite foldl_app. reflexivity. Qed.

Lemma mouseMoves_dragging xs :
  forall s,
    isDragging (core s) = true ->
    let s' := mouseMoves xs s in
    isDragging (core s') = true /\
    dragStartX s' = dragStartX s /\
    initialOffsetX s' = initialOffsetX s /\
    ripples (core s') = ripples (core s) /\
    autoRippleIndex (core s') = autoRippleIndex (core s) /\
    lastAutoRippleTime (core s') = lastAutoRippleTime (core s) /\
    mapOffsetX (core s')
    = match last xs with
      | Some x => initialOffsetX s + (x - dragStartX s)
      | None => mapOffsetX (core s)
      end.
Proof.
  induction xs as [|x xs IH] using rev_ind; intros s H; cbv zeta.
  - simpl. repeat split. exact H.
  - rewrite mouseMoves_snoc, last_snoc.
    destruct (IH s H) as (D & X & O & R & I & T & _).
    unfold onMouseMove. rewrite D. simpl. rewrite X, O.
    repeat split; assumption.
Qed.

(** X6. While the button is down the offset follows the pointer: after a
    [mousedown] at [x0] and any moves, the offset is the offset at the
    [mousedown] plus the distance from [x0] to the last position, whatever the
    positions in between, and nothing else has changed.  Moves with the button
    up, and so all moves after a [mouseup], change nothing. *)
Theorem drag_follows_pointer (s : Session) (x0 : Q) (xs : list Q) :
  (let s' := mouseMoves xs (onMouseDown x0 s) in
   mapOffsetX (core s')
   = match last xs with
     | Some x => mapOffsetX (core s) + (x - x0)
     | None => mapOffsetX (core s)
     end /\
   isDragging (core s') = true /\
   ripples (core s') = ripples (core s) /\
   autoRippleIndex (core s') = autoRippleIndex (core s) /\
   lastAutoRippleTime (core s') = lastAutoRippleTime (core s)) /\
  (isDragging (core s) = false -> mouseMoves xs s = s) /\
  mouseMoves xs (onMouseUp s) = onMouseUp s.
Proof.
  assert (Up : forall t, isDragging (core t) = false -> mouseMoves xs t = t).
  { intros t H. induction xs as [|x xs IH] using rev_ind; [reflexivity|].
    rewrite mouseMoves_snoc, IH. unfold onMouseMove. rewrite H. reflexivity. }
  split; [|split; [apply Up | apply Up; reflexivity]].
  destruct (mouseMoves_dragging xs (onMouseDown x0 s) eq_refl)
    as (D & _ & _ & R & I & T & M).
  cbv zeta. simpl in M, R, I, T. rewrite M.
  split; [destruct (last xs); reflexivity|]. repeat split; assumption.
Qed.

(** [drag_follows_pointer]: idle moves, and a drag from [100] to [70]. *)
Lemma drag_follows_pointer_witness :
  isDragging (core initialSession) = false /\
  mouseMoves [10; 20] initialSession = initialSession /\
  mapOffsetX (core (mouseMoves [120; 90; 70] (onMouseDown 100 initialSession)))
  = 0 + (70 - 100).
Proof.
  destruct (drag_follows_pointer initialSession 100 [10; 20]) as (_ & Idle & _).
  destruct (drag_follows_pointer initialSession 100 [120; 90; 70])
    as ((M & _) & _).
  split; [reflexivity|]. split; [apply Idle; reflexivity | exact M].
Defined.

(** X7. A drag over a whole number of canvas widths shows the map as it was:
    with whole pointer positions, a whole width and whole offsets before and
    after, the normalised offset after the drag is the normalised offset
    before. *)
Theorem drag_whole_turn (s : Session) (x0 w : Q) (k : Z) :
  Whole w -> Whole x0 -> Whole (x0 + inject_Z k * w) ->
  Whole (mapOffsetX (core s)) ->
  Whole (mapOffsetX (core s) + inject_Z k * w) ->
  0 < w ->
  exists r1 r2 : Q,
    normalizeOffset w (mapOffsetX (core s)) = Some r1 /\
    normalizeOffset w
      (mapOffsetX
         (core (onMouseUp
                  (onMouseMove (x0 + inject_Z k * w) (onMouseDown x0 s)))))
    = Some r2 /\
    r1 == r2 /\ Whole r1.
Proof.
  intros Ww _ _ Wo _ Hw. simpl.
  destruct (normalizeOffset_total w (mapOffsetX (core s)) Hw)
    as (r1 & E1 & A & B & k1 & H1).
  destruct (normalizeOffset_unique w
              (mapOffsetX (core s) + (x0 + inject_Z k * w - x0)) r1 (k1 - k)
              Hw A B) as (r2 & E2 & H2).
  { unfold Z.sub. rewrite inject_Z_plus, inject_Z_opp, H1. ring. }
  exists r1, r2. split; [exact E1|]. split; [exact E2|].
  split; [symmetry; exact H2|].
  apply (normalizeOffset_Whole w (mapOffsetX (core s)) r1 Ww Wo Hw E1).
Qed.

(** [drag_whole_turn] on a drag of two widths to the left. *)
Lemma drag_whole_turn_witness :
  (Whole 800 /\ Whole 100 /\ Whole (100 + inject_Z (-2) * 800) /\
   Whole (mapOffsetX (core initialSession)) /\
   Whole (mapOffsetX (core initialSession) + inject_Z (-2) * 800) /\
   0 < 800) /\
  exists r1 r2 : Q,
    normalizeOffset 800 (mapOffsetX (core initialSession)) = Some r1 /\
    normalizeOffset 800
      (mapOffsetX
         (core (onMouseUp
                  (onMouseMove (100 + inject_Z (-2) * 800)
                     (onMouseDown 100 initialSession)))))
    = Some r2 /\
    r1 == r2 /\ Whole r1.
Proof.
  assert (W8 : Whole 800) by whole 800%Z.
  assert (W1 : Whole 100) by whole 100%Z.
  assert (W2 : Whole (100 + inject_Z (-2) * 800)) by whole (-1500)%Z.
  assert (W0 : Whole (mapOffsetX (core initialSession))) by whole 0%Z.
  assert (W3 : Whole (mapOffsetX (core initialSession) + inject_Z (-2) * 800))
    by whole (-1600)%Z.
  split; [repeat split; assumption|].
  apply (drag_whole_turn initialSession 100 800 (-2) W8 W1 W2 W0 W3).
  reflexivity.
Defined.

(** ** Clicking *)

(** X8. A click while the drag flag is set does nothing.  Otherwise, on a
    canvas of positive width, a click at [(sx, sy)] appends one manual ripple
    (not automatic, of the manual colour, radius 0) anchored on the map, and
    leaves the offset and the throttle alone; while the offset stays the
    same, that ripple is drawn at the ordinate of the click and, when the
    abscissa of the click, the offset and the width are whole, at its
    abscissa, for a click at [0 < sx <= w].  As the flag is cleared by
    [mouseup], the click that ends a drag is not ignored: it appends a ripple
    too. *)
Theorem click_spawns_where_clicked
    (pg : Page) (sx sy : Q) (st : State) (s : Session) :
  0 < canvas_width pg ->
  (isDragging st = true -> onClick pg sx sy st = Some st) /\
  (isDragging st = false -> 0 <= sx -> sx <= canvas_width pg ->
   exists (off : Q) (st' : State) (r : Ripple),
     normalizeOffset (canvas_width pg) (mapOffsetX st) = Some off /\
     onClick pg sx sy st = Some st' /\
     ripples st' = ripples st ++ [r] /\
     fromAuto r = false /\ baseColor r = "#22d3ee"%string /\
     radius r = 0 /\ baseY r = sy /\
     0 <= baseX r /\ baseX r <= canvas_width pg /\
     (exists inner outer width alpha color,
         drawRipple (canvas_width pg) off r
         = Ring (toScreen (baseX r) off (canvas_width pg)) sy
                inner outer width alpha color) /\
     (Whole sx -> Whole (mapOffsetX st) -> Whole (canvas_width pg) ->
      0 < sx ->
      toScreen (baseX r) off (canvas_width pg) == sx /\ Whole (baseX r)) /\
     mapOffsetX st' = mapOffsetX st /\
     autoRippleIndex st' = autoRippleIndex st /\
     lastAutoRippleTime st' = lastAutoRippleTime st) /\
  (exists st' : State,
      onClick pg sx sy (core (onMouseUp s)) = Some st' /\
      length (ripples st') = S (length (ripples (core s)))).
Proof.
  intros Hw. repeat apply conj.
  - intros D. unfold onClick. rewrite D. reflexivity.
  - intros D S0 Sw.
    destruct (normalizeOffset_total (canvas_width pg) (mapOffsetX st) Hw)
      as (off & E & A & B & _).
    destruct (projections_stay_on_canvas_aux sx off (canvas_width pg))
      as [T0 Tw]; try assumption.
    exists off. eexists. eexists. split; [exact E|].
    unfold onClick. rewrite D, E. simpl. split; [reflexivity|]. simpl.
    split; [reflexivity|]. repeat split; try assumption.
    + do 5 eexists. reflexivity.
    + apply (toScreen_toBase_aux sx off (canvas_width pg)); assumption.
    + apply toBase_Whole; try assumption.
      apply (normalizeOffset_Whole (canvas_width pg) (mapOffsetX st) off);
        assumption.
  - destruct (normalizeOffset_total (canvas_width pg)
                (mapOffsetX (core (onMouseUp s))) Hw) as (off & E & _).
    eexists. unfold onClick. simpl isDragging. cbv iota. rewrite E. simpl.
    split; [reflexivity|]. simpl. rewrite length_createRippleFromWorld.
    reflexivity.
Qed.

(** [click_spawns_where_clicked] with the button down and with it up. *)
Lemma click_spawns_where_clicked_witness :
  (0 < canvas_width examplePage /\
   isDragging (core (onMouseDown 5 initialSession)) = true /\
   isDragging initialState = false /\
   0 <= 10 /\ 10 <= canvas_width examplePage /\ 0 < 10 /\
   Whole 10 /\ Whole (mapOffsetX initialState) /\
   Whole (canvas_width examplePage)) /\
  onClick examplePage 10 20 (core (onMouseDown 5 initialSession))
  = Some (core (onMouseDown 5 initialSession)) /\
  exists (off : Q) (st' : State) (r : Ripple),
    normalizeOffset 800 (mapOffsetX initialState) = Some off /\
    onClick examplePage 10 20 initialState = Some st' /\
    ripples st' = ripples initialState ++ [r] /\
    toScreen (baseX r) off 800 == 10.
Proof.
  assert (W1 : Whole 10) by whole 10%Z.
  assert (W0 : Whole (mapOffsetX initialState)) by whole 0%Z.
  assert (W8 : Whole (canvas_width examplePage)) by whole 800%Z.
  destruct (click_spawns_where_clicked examplePage 10 20
              (core (onMouseDown 5 initialSession)) initialSession eq_refl)
    as (Held & _ & _).
  destruct (click_spawns_where_clicked examplePage 10 20 initialState
              initialSession eq_refl) as (_ & Free & _).
  split; [repeat split; try assumption; discriminate || reflexivity|].
  split; [apply Held; reflexivity|].
  destruct Free
    as (off & st' & r & E & C & R & _ & _ & _ & _ & _ & _ & _ & D & _);
    [reflexivity | discriminate | discriminate |].
  destruct (D W1 W0 W8 eq_refl) as [T _].
  exists off, st', r. auto.
Defined.
(** ** The feed *)

Lemma quakeOfFeature_range w h feature :
  0 <= w -> 0 <= h ->
  -180 <= f_lon feature -> f_lon feature <= 180 ->
  -90 <= f_lat feature -> f_lat feature <= 90 ->
  let q := quakeOfFeature w h feature in
  0 <= q_baseX q /\ q_baseX q <= w /\ 0 <= q_baseY q /\ q_baseY q <= h.
Proof.
  intros Hw Hh A B C D q. subst q. unfold quakeOfFeature. simpl.
  assert (EX : (f_lon feature + 180) / 360 == (f_lon feature + 180) * (1 # 360))
    by field.
  assert (EY : (90 - f_lat feature) / 180 == (90 - f_lat feature) * (1 # 180))
    by field.
  rewrite EX, EY. repeat split; nra.
Qed.

(** X9. A failed request leaves the feed as it was and reports the failure.
    A successful one replaces the feed by one event per feature, in the order
    of the features, with the magnitude and depth of the feature; on a canvas
    of non-negative size every feature with a longitude in [[-180, 180]] and
    a latitude in [[-90, 90]] gets a base position on the canvas, and of two
    such features the one further east is not further left, the one further
    north not further down. *)
Theorem fetchRecentQuakes_feed (pg : Page) (features : list Feature) :
  0 <= canvas_width pg -> 0 <= canvas_height pg ->
  fetchRecentQuakes Rejected pg
  = (pg, "Failed to load recent earthquakes."%string) /\
  fetchRecentQuakes HttpError pg
  = (pg, "Failed to load recent earthquakes."%string) /\
  let pg' := fst (fetchRecentQuakes (Json features) pg) in
  length (recentQuakes pg') = length features /\
  map q_mag (recentQuakes pg') = map f_mag features /\
  map q_depth (recentQuakes pg') = map f_depthKm features /\
  canvas_width pg' = canvas_width pg /\
  canvas_height pg' = canvas_height pg /\
  (forall i feature,
      features !! i = Some feature -> OnGlobe feature ->
      exists quake,
        recentQuakes pg' !! i = Some quake /\
        0 <= q_baseX quake /\ q_baseX quake <= canvas_width pg /\
        0 <= q_baseY quake /\ q_baseY quake <= canvas_height pg) /\
  (forall i j fi fj qi qj,
      features !! i = Some fi -> features !! j = Some fj ->
      recentQuakes pg' !! i = Some qi -> recentQuakes pg' !! j = Some qj ->
      (f_lon fi <= f_lon fj -> q_baseX qi <= q_baseX qj) /\
      (f_lat fi <= f_lat fj -> q_baseY qj <= q_baseY qi)).
Proof.
  intros Hw Hh. split; [reflexivity|]. split; [reflexivity|].
  cbv zeta. simpl. rewrite length_map, <- !list_fmap_compose.
  repeat apply conj; try reflexivity.
  - intros i feature Hi (A & B & C & D).
    exists (quakeOfFeature (canvas_width pg) (canvas_height pg) feature).
    split; [rewrite list_lookup_fmap, Hi; reflexivity|].
    apply quakeOfFeature_range; assumption.
  - intros i j fi fj qi qj Hi Hj Qi Qj.
    rewrite list_lookup_fmap, Hi in Qi. rewrite list_lookup_fmap, Hj in Qj.
    injection Qi as <-. injection Qj as <-. unfold quakeOfFeature. simpl.
    assert (EX : forall a, (a + 180) / 360 == (a + 180) * (1 # 360))
      by (intros; field).
    assert (EY : forall a, (90 - a) / 180 == (90 - a) * (1 # 180))
      by (intros; field).
    rewrite !EX, !EY. split; intros; nra.
Qed.

(** [fetchRecentQuakes_feed] on two features near the date line. *)
Lemma fetchRecentQuakes_feed_witness :
  (0 <= canvas_width examplePage /\ 0 <= canvas_height examplePage /\
   [mkFeature 170 60 10 5; mkFeature (-170) (-60) 300 7] !! 1%nat
   = Some (mkFeature (-170) (-60) 300 7) /\
   OnGlobe (mkFeature (-170) (-60) 300 7)) /\
  snd (fetchRecentQuakes
         (Json [mkFeature 170 60 10 5; mkFeature (-170) (-60) 300 7])
         examplePage)
  = "Loaded 2 recent earthquakes. Click the map or enable auto-ripples."%string
  /\
  exists quake,
    recentQuakes
      (fst (fetchRecentQuakes
              (Json [mkFeature 170 60 10 5; mkFeature (-170) (-60) 300 7])
              examplePage)) !! 1%nat = Some quake /\
    0 <= q_baseX quake /\ q_baseX quake <= canvas_width examplePage /\
    0 <= q_baseY quake /\ q_baseY quake <= canvas_height examplePage.
Proof.
  destruct (fetchRecentQuakes_feed examplePage
              [mkFeature 170 60 10 5; mkFeature (-170) (-60) 300 7])
    as (_ & _ & _ & _ & _ & _ & _ & OnCanvas & _);
    [discriminate | discriminate |].
  split; [repeat split; discriminate || reflexivity|].
  split; [reflexivity|].
  apply (OnCanvas 1%nat (mkFeature (-170) (-60) 300 7)); [reflexivity|].
  repeat split; discriminate.
Defined.

(** ** What a frame draws *)

Lemma toScreen_range_aux (x o w : Q) :
  0 <= x -> x <= w -> 0 <= o -> o < w ->
  0 <= toScreen x o w /\ toScreen x o w <= w.
Proof.
  intros A B C D.
  destruct (toScreen_cases x o w) as [[H ->] | [H ->]]; split; lra.
Qed.

Lemma markerThrows_false quake :
  markerThrows quake = false <-> 0 <= 2 + q_mag quake.
Proof. unfold markerThrows. apply NumFacts.ltb_false. Qed.

(** X10. A frame that returns has drawn the markers first, one for every
    event of the feed in the order of the feed (none when the markers are
    switched off), and then exactly one ring for every ripple it leaves in
    the store, the newest ripple first; a ripple it removes is not drawn.
    No radius it has passed to the canvas is negative. *)
Theorem frame_draws_markers_then_rings
    (pg : Page) (t : Q) (st : State) (f : Frame) :
  drawFrame pg t st = Some f ->
  exists (off : Q) (markers rings : list Draw),
    normalizeOffset (canvas_width pg) (mapOffsetX st) = Some off /\
    f_draws f = markers ++ rings /\
    markers
    = (if showQuakesChecked pg
       then map (fun quake =>
                   Marker (toScreen (q_baseX quake) off (canvas_width pg))
                          (q_baseY quake) (2 + q_mag quake))
                (recentQuakes pg)
       else []) /\
    rings
    = map (fun r =>
             Ring (toScreen (baseX r) off (canvas_width pg)) (baseY r)
                  (radius r * 0.7) (radius r) (lineWidth r) (opacity r)
                  (baseColor r))
          (rev (ripples (f_state f))) /\
    length rings = length (ripples (f_state f)) /\
    (forall x y r, In (Marker x y r) (f_draws f) -> 0 <= r) /\
    (forall x y inner outer width alpha color,
        In (Ring x y inner outer width alpha color) (f_draws f) ->
        0 <= inner /\ 0 <= outer).
Proof.
  intros Ef.
  apply drawFrame_Some in Ef as (off & st1 & EO & Mk & _ & _ & D & ->).
  exists off. eexists. eexists.
  split; [exact EO|]. split; [reflexivity|].
  split; [reflexivity|]. split; [reflexivity|].
  split; [simpl; rewrite length_map, length_rev; reflexivity|].
  simpl f_draws. split.
  - intros x y r Hin. apply in_app_or in Hin as [Hin | Hin].
    + destruct (showQuakesChecked pg); [|destruct Hin].
      apply in_map_iff in Hin as (quake & Eq & Hq).
      specialize (Mk eq_refl). rewrite Forall_forall in Mk.
      apply list_elem_of_In, Mk, markerThrows_false in Hq.
      unfold drawMarker in Eq. injection Eq as _ _ <-. exact Hq.
    + apply in_map_iff in Hin as (r0 & Eq & _). discriminate Eq.
  - intros x y inner outer width alpha color Hin.
    apply in_app_or in Hin as [Hin | Hin].
    + destruct (showQuakesChecked pg); [|destruct Hin].
      apply in_map_iff in Hin as (quake & Eq & _). discriminate Eq.
    + apply in_map_iff in Hin as (r0 & Eq & Hr). apply in_rev in Hr.
      unfold Drawable in D. rewrite Forall_forall in D.
      apply list_elem_of_In, D, ringThrows_false in Hr as [Hr _].
      unfold drawRipple in Eq. injection Eq as _ _ <- <- _ _ _.
      split; lra.
Qed.

(** [frame_draws_markers_then_rings] on [exampleState]: three markers, two
    rings. *)
Lemma frame_draws_markers_then_rings_witness :
  exists (f : Frame) (markers rings : list Draw),
    drawFrame examplePage 500 exampleState = Some f /\
    f_draws f = markers ++ rings /\
    length markers = 3%nat /\ length rings = 2%nat.
Proof.
  destruct (drawFrame examplePage 500 exampleState) as [f|] eqn:Ef;
    [|vm_compute in Ef; discriminate Ef].
  destruct (frame_draws_markers_then_rings examplePage 500 exampleState f Ef)
    as (off & ms & rs & _ & D & M & R & L & _).
  exists f, ms, rs. split; [reflexivity|]. split; [exact D|].
  split; [rewrite M; reflexivity|].
  rewrite L. pose proof Ef as Ef'. vm_compute in Ef'.
  injection Ef' as Ef'. subst f. reflexivity.
Defined.

(** X11. After a successful request whose features all have a longitude in
    [[-180, 180]] and a latitude in [[-90, 90]], on a canvas of whole
    positive width, every marker of a frame that returns lies on the canvas,
    whatever the offset: its abscissa is in [[0, w]], its ordinate in
    [[0, h]], its radius is 2 plus the magnitude of a feature, and not
    negative. *)
Theorem markers_on_canvas
    (pg : Page) (features : list Feature) (t : Q) (st : State) (f : Frame) :
  Whole (canvas_width pg) -> 0 < canvas_width pg -> 0 <= canvas_height pg ->
  Forall OnGlobe features ->
  drawFrame (fst (fetchRecentQuakes (Json features) pg)) t st = Some f ->
  forall x y r,
    In (Marker x y r) (f_draws f) ->
    0 <= x /\ x <= canvas_width pg /\ 0 <= y /\ y <= canvas_height pg /\
    0 <= r /\
    exists feature, In feature features /\ r = 2 + f_mag feature.
Proof.
  intros _ Hw Hh HG Ef x y r Hin.
  apply drawFrame_Some in Ef as (off & st1 & EO & Mk & _ & _ & _ & ->).
  simpl canvas_width in *. simpl recentQuakes in *. simpl f_draws in Hin.
  destruct (normalizeOffset_total (canvas_width pg) (mapOffsetX st) Hw)
    as (off' & EO' & A & B & _).
  rewrite EO' in EO. injection EO as <-.
  apply in_app_or in Hin as [Hin | Hin].
  - destruct (showQuakesChecked _); [|destruct Hin].
    specialize (Mk eq_refl). rewrite Forall_forall in Mk.
    apply in_map_iff in Hin as (quake & Eq & Hq).
    pose proof Hq as Hq'.
    apply list_elem_of_In, Mk, markerThrows_false in Hq'.
    apply in_map_iff in Hq as (feature & <- & Hf).
    rewrite Forall_forall in HG.
    destruct (HG feature) as (G1 & G2 & G3 & G4);
      [apply list_elem_of_In; exact Hf|].
    destruct (quakeOfFeature_range (canvas_width pg) (canvas_height pg)
                feature) as (X0 & Xw & Y0 & Yh); try assumption; try lra.
    unfold drawMarker in Eq. injection Eq as <- <- <-.
    destruct (toScreen_range_aux
                (q_baseX (quakeOfFeature (canvas_width pg) (canvas_height pg)
                            feature)) off' (canvas_width pg))
      as [S0 Sw]; try assumption.
    repeat split; try assumption.
    exists feature. split; [exact Hf | reflexivity].
  - apply in_map_iff in Hin as (r0 & Eq & _). discriminate Eq.
Qed.

(** [markers_on_canvas] on [exampleFeatures]. *)
Lemma markers_on_canvas_witness :
  (Whole (canvas_width examplePage) /\
   0 < canvas_width examplePage /\ 0 <= canvas_height examplePage /\
   Forall OnGlobe exampleFeatures) /\
  exists (f : Frame) (x y r : Q),
    drawFrame (fst (fetchRecentQuakes (Json exampleFeatures) examplePage))
      500 initialState = Some f /\
    In (Marker x y r) (f_draws f) /\
    0 <= x /\ x <= canvas_width examplePage /\
    0 <= y /\ y <= canvas_height examplePage /\ 0 <= r.
Proof.
  assert (G : Forall OnGlobe exampleFeatures)
    by (repeat constructor; discriminate).
  assert (W : Whole (canvas_width examplePage)) by whole 800%Z.
  split; [repeat split; try discriminate; assumption|].
  destruct (drawFrame (fst (fetchRecentQuakes (Json exampleFeatures)
                              examplePage)) 500 initialState)
    as [f|] eqn:Ef; [|vm_compute in Ef; discriminate Ef].
  pose proof Ef as Ef'. vm_compute in Ef'. injection Ef' as Ef'.
  assert (exists x y r, In (Marker x y r) (f_draws f)) as (x & y & r & Hin)
    by (rewrite <- Ef'; do 3 eexists; left; reflexivity).
  exists f, x, y, r. split; [reflexivity|]. split; [exact Hin|].
  destruct (markers_on_canvas examplePage exampleFeatures 500 initialState f
              W eq_refl ltac:(discriminate) G Ef x y r Hin)
    as (A & B & C & D & E & _).
  auto.
Defined.

(** ** Rings the canvas accepts *)

Lemma survivor_ValidRing w offset r0 :
  WellBuilt r0 -> expired (aged r0) = false -> ringThrows (aged r0) = false ->
  ValidRing (drawRipple w offset (aged r0)).
Proof.
  intros (M1 & M2 & L1 & L2 & _) E T.
  destruct (survivor_Live r0 E T) as (R0 & R1 & O).
  unfold drawRipple, ValidRing. simpl in *.
  assert (Q0 : 0 <= (radius r0 + speed r0) / maxRadius r0)
    by (apply Qle_shift_div_l; lra).
  repeat split; try assumption; lra.
Qed.

(** X12. In every state reached through clicks and frames on pages whose
    speed slider is not negative, a frame with such a page draws only rings
    the canvas accepts: the inner radius is not negative and not above the
    outer one, the alpha is in [(0, 1]], the line width in [[2, 5]]. *)
Theorem rings_are_valid (pg : Page) (t : Q) (st : State) (f : Frame) :
  Reachable (fun s => 0 <= s) st -> 0 <= speedSlider pg ->
  drawFrame pg t st = Some f ->
  forall x y inner outer width alpha color,
    In (Ring x y inner outer width alpha color) (f_draws f) ->
    0 <= inner /\ inner <= outer /\ 0 < alpha /\ alpha <= 1 /\
    2 <= width /\ width <= 5.
Proof.
  intros R Hs Ef x y inner outer width alpha color Hin.
  apply drawFrame_Some in Ef as (off & st1 & _ & _ & E1 & _ & D & ->).
  simpl in Hin.
  assert (R1 : StoreReachable (fun s => 0 <= s) (ripples st1)).
  { apply Reachable_StoreReachable in R.
    destruct (maybeSpawnAutoRipple_cases pg t st)
      as [[_ E'] | (_ & _ & _ & q & _ & E')];
      rewrite E' in E1; injection E1 as <-; [exact R|].
    simpl. apply SR_spawn; assumption. }
  pose proof (StoreReachable_WellBuilt _ _ R1) as W1.
  apply in_app_or in Hin as [Hin | Hin].
  - destruct (showQuakesChecked pg); [|destruct Hin].
    apply in_map_iff in Hin as (q & Eq & _). discriminate Eq.
  - apply in_map_iff in Hin as (r & Eq & Hr).
    apply in_rev in Hr.
    unfold Drawable in D. rewrite Forall_forall in D.
    pose proof (D r ltac:(apply list_elem_of_In; exact Hr)) as T.
    apply In_pruned in Hr as (r0 & H0 & -> & E).
    rewrite Forall_forall in W1.
    pose proof (survivor_ValidRing (canvas_width pg) off r0
                  (W1 r0 ltac:(apply list_elem_of_In; exact H0)) E T) as V.
    rewrite Eq in V. exact V.
Qed.

(** [rings_are_valid] on the frame that follows a click. *)
Lemma rings_are_valid_witness :
  exists (st : State) (f : Frame) (x y inner outer width alpha : Q)
         (color : string),
    onClick examplePage 10 20 initialState = Some st /\
    Reachable (fun s => 0 <= s) st /\
    0 <= speedSlider examplePage /\
    drawFrame examplePage 2100 st = Some f /\
    In (Ring x y inner outer width alpha color) (f_draws f) /\
    0 <= inner /\ inner <= outer /\ 0 < alpha /\ alpha <= 1 /\
    2 <= width /\ width <= 5.
Proof.
  destruct (onClick examplePage 10 20 initialState) as [st|] eqn:E1;
    [|vm_compute in E1; discriminate E1].
  destruct (drawFrame examplePage 2100 st) as [f|] eqn:E2;
    [|vm_compute in E1; injection E1 as E1; subst st;
      vm_compute in E2; discriminate E2].
  assert (R0 : Reachable (fun s => 0 <= s) st).
  { eapply (Reach_click _ initialState examplePage 10 20 st);
      [apply Reach_init | discriminate | exact E1]. }
  assert (exists x y i o w a c, In (Ring x y i o w a c) (f_draws f))
    as (x & y & i & o & w & a & c & Hin).
  { pose proof E1 as E1'. vm_compute in E1'. injection E1' as E1'.
    pose proof E2 as E2'. rewrite <- E1' in E2'. vm_compute in E2'.
    injection E2' as E2'. rewrite <- E2'.
    do 7 eexists. simpl. do 3 right. left. reflexivity. }
  exists st, f, x, y, i, o, w, a, c.
  split; [reflexivity|]. split; [exact R0|]. split; [discriminate|].
  split; [exact E2|]. split; [exact Hin|].
  apply (rings_are_valid examplePage 2100 st f R0 ltac:(discriminate) E2
           x y i o w a c Hin).
Defined.

(** ** What a spawn fixes *)

Lemma magFactor_mono m1 m2 :
  m1 <= m2 ->
  (Num.max 3 (Num.min 9 m1) - 3) / 6 <= (Num.max 3 (Num.min 9 m2) - 3) / 6.
Proof.
  intros H.
  destruct (max_min_clamp 3 9 m1) as (A1 & B1 & C1 & D1 & E1); [discriminate|].
  destruct (max_min_clamp 3 9 m2) as (A2 & B2 & C2 & D2 & E2); [discriminate|].
  set (c1 := Num.max 3 (Num.min 9 m1)) in *.
  set (c2 := Num.max 3 (Num.min 9 m2)) in *.
  assert (L : c1 <= c2).
  { destruct (Qlt_le_dec m1 3); [rewrite C1 by lra; exact A2|].
    destruct (Qlt_le_dec 9 m2); [rewrite (D2 ltac:(lra)); exact B1|].
    destruct (Qlt_le_dec 9 m1); [lra|]. rewrite E1, E2 by lra. exact H. }
  assert (F1 : (c1 - 3) / 6 == (c1 - 3) * (1 # 6)) by field.
  assert (F2 : (c2 - 3) / 6 == (c2 - 3) * (1 # 6)) by field.
  rewrite F1, F2. lra.
Qed.

Lemma depthFactor_mono d1 d2 :
  d1 <= d2 ->
  1 - Num.max 0 (Num.min 700 d2) / 700 <= 1 - Num.max 0 (Num.min 700 d1) / 700.
Proof.
  intros H.
  destruct (max_min_clamp 0 700 d1) as (A1 & B1 & C1 & D1 & E1); [discriminate|].
  destruct (max_min_clamp 0 700 d2) as (A2 & B2 & C2 & D2 & E2); [discriminate|].
  set (c1 := Num.max 0 (Num.min 700 d1)) in *.
  set (c2 := Num.max 0 (Num.min 700 d2)) in *.
  assert (L : c1 <= c2).
  { destruct (Qlt_le_dec d1 0); [rewrite C1 by lra; exact A2|].
    destruct (Qlt_le_dec 700 d2); [rewrite (D2 ltac:(lra)); exact B1|].
    destruct (Qlt_le_dec 700 d1); [lra|]. rewrite E1, E2 by lra. exact H. }
  assert (F1 : c1 / 700 == c1 * (1 # 700)) by field.
  assert (F2 : c2 / 700 == c2 * (1 # 700)) by field.
  rewrite F1, F2. lra.
Qed.

Lemma factors_range m d :
  0 <= (Num.max 3 (Num.min 9 m) - 3) / 6 /\
  (Num.max 3 (Num.min 9 m) - 3) / 6 <= 1 /\
  0 <= 1 - Num.max 0 (Num.min 700 d) / 700 /\
  1 - Num.max 0 (Num.min 700 d) / 700 <= 1.
Proof.
  destruct (max_min_clamp 3 9 m) as (A1 & B1 & _); [discriminate|].
  destruct (max_min_clamp 0 700 d) as (A2 & B2 & _); [discriminate|].
  set (c1 := Num.max 3 (Num.min 9 m)) in *.
  set (c2 := Num.max 0 (Num.min 700 d)) in *.
  assert (F1 : (c1 - 3) / 6 == (c1 - 3) * (1 # 6)) by field.
  assert (F2 : c2 / 700 == c2 * (1 # 700)) by field.
  rewrite F1, F2. repeat split; lra.
Qed.

(** X13. Whatever its arguments, [createRippleFromWorld] appends a ripple
    with a maximal radius in [[80, 300]] and a line width in [[2, 5]], of the
    automatic colour exactly when [fromAuto] is set; its growth rate has the
    sign of the speed multiplier.  The growth rate and the line width do not
    depend on the depth, and none of the three on the position. *)
Theorem spawn_bounds
    (bx by' bx' by'' m d d' s : Q) (fa : bool) (rs rs' : list Ripple) :
  exists r r' : Ripple,
    createRippleFromWorld bx by' m d s fa rs = rs ++ [r] /\
    createRippleFromWorld bx' by'' m d' s fa rs' = rs' ++ [r'] /\
    80 <= maxRadius r /\ maxRadius r <= 300 /\
    2 <= lineWidth r /\ lineWidth r <= 5 /\
    (baseColor r = "#4ade80"%string <-> fa = true) /\
    (baseColor r = "#22d3ee"%string <-> fa = false) /\
    (0 <= s -> 0 <= speed r) /\ (s <= 0 -> speed r <= 0) /\
    speed r' = speed r /\ lineWidth r' = lineWidth r /\
    (d' == d -> maxRadius r' == maxRadius r).
Proof.
  eexists. eexists. split; [reflexivity|]. split; [reflexivity|]. simpl.
  destruct (factors_range m d) as (A & B & C & D).
  set (mf := (Num.max 3 (Num.min 9 m) - 3) / 6) in *.
  set (df := 1 - Num.max 0 (Num.min 700 d) / 700) in *.
  repeat apply conj; try reflexivity; try nra;
    try (destruct fa; simpl; intros H; try reflexivity; discriminate H).
  intros H. subst df.
  assert (E : Num.max 0 (Num.min 700 d') == Num.max 0 (Num.min 700 d)).
  { unfold Num.max, Num.min. rewrite H. reflexivity. }
  rewrite E. reflexivity.
Qed.

(** [spawn_bounds] on a magnitude and a depth that are both clamped. *)
Lemma spawn_bounds_witness :
  exists r r' : Ripple,
    createRippleFromWorld 10 20 15 (-10) 2 true [] = [r] /\
    createRippleFromWorld 30 40 15 (-10) 2 true [] = [r'] /\
    80 <= maxRadius r /\ maxRadius r <= 300 /\
    0 <= 2 /\ 0 <= speed r /\
    -10 == -10 /\ maxRadius r' == maxRadius r.
Proof.
  destruct (spawn_bounds 10 20 30 40 15 (-10) (-10) 2 true [] [])
    as (r & r' & E & E' & M1 & M2 & _ & _ & _ & _ & S & _ & _ & _ & M).
  exists r, r'. split; [exact E|]. split; [exact E'|].
  split; [exact M1|]. split; [exact M2|].
  split; [discriminate|]. split; [apply S; discriminate|].
  split; [reflexivity | apply M; reflexivity].
Defined.

(** X14. A stronger quake makes a larger ripple: if the magnitude is not
    smaller and the depth not greater, the maximal radius and the line width
    are not smaller, and, with a non-negative speed multiplier, neither is
    the growth rate (with a non-positive one the growth rate is not
    greater). *)
Theorem spawn_monotone
    (bx by' bx' by'' m1 m2 d1 d2 s : Q) (fa fa' : bool)
    (rs rs' : list Ripple) :
  m1 <= m2 -> d2 <= d1 ->
  exists r1 r2 : Ripple,
    createRippleFromWorld bx by' m1 d1 s fa rs = rs ++ [r1] /\
    createRippleFromWorld bx' by'' m2 d2 s fa' rs' = rs' ++ [r2] /\
    maxRadius r1 <= maxRadius r2 /\
    lineWidth r1 <= lineWidth r2 /\
    (0 <= s -> speed r1 <= speed r2) /\
    (s <= 0 -> speed r2 <= speed r1).
Proof.
  intros Hm Hd.
  eexists. eexists. split; [reflexivity|]. split; [reflexivity|]. simpl.
  pose proof (magFactor_mono m1 m2 Hm) as M.
  pose proof (depthFactor_mono d2 d1 Hd) as D.
  destruct (factors_range m1 d1) as (A1 & B1 & C1 & D1).
  destruct (factors_range m2 d2) as (A2 & B2 & C2 & D2).
  set (mf1 := (Num.max 3 (Num.min 9 m1) - 3) / 6) in *.
  set (mf2 := (Num.max 3 (Num.min 9 m2) - 3) / 6) in *.
  set (df1 := 1 - Num.max 0 (Num.min 700 d1) / 700) in *.
  set (df2 := 1 - Num.max 0 (Num.min 700 d2) / 700) in *.
  repeat apply conj.
  - assert (P1 : mf1 * (0.4 + 0.6 * df1) <= mf2 * (0.4 + 0.6 * df1)) by nra.
    assert (P2 : mf2 * (0.4 + 0.6 * df1) <= mf2 * (0.4 + 0.6 * df2)) by nra.
    lra.
  - lra.
  - intros H. nra.
  - intros H. nra.
Qed.

(** [spawn_monotone] on a weak deep quake and a strong shallow one. *)
Lemma spawn_monotone_witness :
  (5 <= 7 /\ 10 <= 300 /\ 0 <= 1) /\
  exists r1 r2 : Ripple,
    createRippleFromWorld 0 0 5 300 1 false [] = [r1] /\
    createRippleFromWorld 0 0 7 10 1 true [] = [r2] /\
    maxRadius r1 <= maxRadius r2 /\
    lineWidth r1 <= lineWidth r2 /\
    speed r1 <= speed r2.
Proof.
  split; [repeat split; discriminate|].
  destruct (spawn_monotone 0 0 0 0 5 7 300 10 1 false true [] [])
    as (r1 & r2 & E1 & E2 & M & L & S & _); [discriminate | discriminate |].
  exists r1, r2. repeat split; try assumption. apply S. discriminate.
Defined.


(** ** The life of a ripple *)

Lemma spawned_Fading bx by' m d s fa rs :
  0 <= s -> Forall Fading rs ->
  Forall Fading (createRippleFromWorld bx by' m d s fa rs).
Proof.
  intros Hs H. rewrite createRippleFromWorld_app. apply Forall_app.
  split; [exact H|]. apply Forall_singleton.
  destruct (factors_range m d) as (A & B & _).
  unfold Fading. simpl.
  set (mf := (Num.max 3 (Num.min 9 m) - 3) / 6) in *.
  split; [nra|]. unfold Qdiv. ring.
Qed.

(** With speed multipliers that are not negative, every ripple of a
    reachable store grows, and its opacity is the one computed from its
    radius. *)
Lemma StoreReachable_Fading rs :
  StoreReachable (fun s => 0 <= s) rs -> Forall Fading rs.
Proof.
  induction 1 as [|rs bx by' m d s fa _ IH Hs|rs w offset p _ IH E].
  - constructor.
  - apply spawned_Fading; assumption.
  - apply advanceAndPrune_Some in E as (_ & _ & ->). simpl.
    apply pruned_Forall; [|exact IH].
    intros r [S _] _. split; [exact S | reflexivity].
Qed.

(** X15. Ripples only grow and fade.  In a store reached with speed
    multipliers that are not negative, every ripple that a completed pass
    leaves is a ripple of the store before, with the radius
    [radius + speed], which is not smaller, and an opacity that is not
    greater; it is not decayed, and its other fields are untouched.  The pass
    leaves no more ripples than it found. *)
Theorem ripples_grow_and_fade
    (rs : list Ripple) (w offset : Q) (p : Pass) :
  StoreReachable (fun s => 0 <= s) rs ->
  advanceAndPrune w offset rs = Some p ->
  (length (p_ripples p) <= length rs)%nat /\
  forall r' : Ripple,
    In r' (p_ripples p) ->
    exists r : Ripple,
      In r rs /\
      radius r' = radius r + speed r /\
      radius r <= radius r' /\ radius r' < maxRadius r' /\
      opacity r' <= opacity r /\ 0 < opacity r' /\
      maxRadius r' = maxRadius r /\ speed r' = speed r /\
      baseX r' = baseX r /\ baseY r' = baseY r /\
      lineWidth r' = lineWidth r /\ baseColor r' = baseColor r /\
      fromAuto r' = fromAuto r.
Proof.
  intros R E.
  pose proof (StoreReachable_Fading rs R) as F.
  pose proof (StoreReachable_WellBuilt _ rs R) as W.
  apply advanceAndPrune_Some in E as (_ & D & ->). simpl. split.
  - unfold pruned. rewrite <- (length_map aged rs). apply filter_length_le.
  - intros r' Hr.
    pose proof (Drawable_Live rs D) as L. rewrite Forall_forall in L.
    destruct (L r' ltac:(apply list_elem_of_In; exact Hr)) as (_ & L1 & L2).
    apply In_pruned in Hr as (r & H0 & -> & _).
    rewrite Forall_forall in F, W.
    destruct (F r ltac:(apply list_elem_of_In; exact H0)) as [S O].
    destruct (W r ltac:(apply list_elem_of_In; exact H0)) as [M _].
    exists r. split; [exact H0|]. simpl in *.
    assert (I : 0 < / maxRadius r) by (apply Qinv_lt_0_compat; lra).
    repeat split; try assumption; try lra.
    rewrite O. unfold Qdiv. nra.
Qed.

(** [ripples_grow_and_fade] on the store a click leaves: after one pass the
    ripple has the radius of its growth rate. *)
Lemma ripples_grow_and_fade_witness :
  exists (rs : list Ripple) (p : Pass) (r' : Ripple),
    rs = createRippleFromWorld 10 20 5 10 1 false [] /\
    StoreReachable (fun s => 0 <= s) rs /\
    advanceAndPrune 800 0 rs = Some p /\
    p_ripples p = [r'] /\
    (length (p_ripples p) <= length rs)%nat /\
    exists r : Ripple,
      In r rs /\ radius r' = radius r + speed r /\
      radius r <= radius r' /\ opacity r' <= opacity r.
Proof.
  assert (R : StoreReachable (fun s => 0 <= s)
                (createRippleFromWorld 10 20 5 10 1 false []))
    by (apply SR_spawn; [apply SR_init | discriminate]).
  destruct (advanceAndPrune 800 0 (createRippleFromWorld 10 20 5 10 1 false []))
    as [p|] eqn:E; [|vm_compute in E; discriminate E].
  destruct (ripples_grow_and_fade _ 800 0 p R E) as [Len Grow].
  assert (exists r', p_ripples p = [r']) as [r' P].
  { pose proof E as E'. vm_compute in E'. injection E' as E'. subst p.
    eexists. reflexivity. }
  exists (createRippleFromWorld 10 20 5 10 1 false []), p, r'.
  split; [reflexivity|]. split; [exact R|]. split; [exact E|].
  split; [exact P|]. split; [exact Len|].
  destruct (Grow r' ltac:(rewrite P; left; reflexivity))
    as (r & H0 & G1 & G2 & _ & G3 & _).
  exists r. auto.
Defined.

(** ** Tooltip *)

(** The two tests of lines 247-250 clamp the position between 4 and the
    last place that leaves the tooltip in the wrapper, the lower bound
    winning. *)
Lemma tooltip_clamp (x wrap t : Q) :
  let m := wrap - t - 4 in
  let l := if Num.gtb x m then m else x in
  let l' := if Num.ltb l 4 then 4 else l in
  l' == Num.max 4 (Num.min x m) /\
  4 <= l' /\
  (wrap < t + 8 -> l' == 4) /\
  (t + 8 <= wrap -> l' + t + 4 <= wrap).
Proof.
  cbv zeta. set (m := wrap - t - 4). unfold Num.max, Num.min.
  destruct (Q.min_spec x m) as [[X1 X2] | [X1 X2]];
    destruct (Q.max_spec 4 (Qmin x m)) as [[M1 M2] | [M1 M2]];
    destruct (Num.gtb x m) eqn:G;
    [apply NumFacts.gtb_true in G | apply NumFacts.gtb_false in G
    |apply NumFacts.gtb_true in G | apply NumFacts.gtb_false in G
    |apply NumFacts.gtb_true in G | apply NumFacts.gtb_false in G
    |apply NumFacts.gtb_true in G | apply NumFacts.gtb_false in G];
    match goal with
    | |- context [Num.ltb ?a 4] =>
        destruct (Num.ltb a 4) eqn:L;
        [apply NumFacts.ltb_true in L | apply NumFacts.ltb_false in L]
    end;
    subst m; repeat split; intros; lra.
Qed.

(** X16. For a canvas of non-zero size: on an event without a magnitude the
    handler throws before it places the tooltip, which stays where it was.
    On an event with a magnitude the tooltip is placed at
    [max(4, min(relX + 8, maxLeft))] and [max(4, min(relY + 8, maxTop))],
    never nearer than 4 to the left and top edges of the wrapper; when the
    wrapper is narrower (lower) than the tooltip plus 8 the tooltip is pinned
    at 4; when the sizes are whole and the wrapper is at least 8 wider
    (higher) than the tooltip, the tooltip also keeps 4 from the right
    (bottom) edge.  A measured size of 0 counts as 160 by 60. *)
Theorem tooltip_inside_wrapper
    (before : Q * Q) (mag : option Q)
    (canvasW canvasH wrapW wrapH offsetWidth offsetHeight qx qy : Q) :
  ~ canvasW == 0 -> ~ canvasH == 0 ->
  let tw := orDefault offsetWidth 160 in
  let th := orDefault offsetHeight 60 in
  (mag = None ->
   tooltipPosition before mag canvasW canvasH wrapW wrapH
     offsetWidth offsetHeight qx qy = Threw before) /\
  (forall m : Q,
      mag = Some m ->
      exists left top : Q,
        tooltipPosition before mag canvasW canvasH wrapW wrapH
          offsetWidth offsetHeight qx qy = Returned (left, top) /\
        left == Num.max 4 (Num.min (qx / canvasW * wrapW + 8)
                                   (wrapW - tw - 4)) /\
        top == Num.max 4 (Num.min (qy / canvasH * wrapH + 8)
                                  (wrapH - th - 4)) /\
        4 <= left /\ 4 <= top /\
        (wrapW < tw + 8 -> left == 4) /\
        (wrapH < th + 8 -> top == 4) /\
        (Whole wrapW -> Whole tw -> tw + 8 <= wrapW ->
         left + tw + 4 <= wrapW) /\
        (Whole wrapH -> Whole th -> th + 8 <= wrapH ->
         top + th + 4 <= wrapH)) /\
  (offsetWidth == 0 -> tw = 160) /\ (offsetHeight == 0 -> th = 60).
Proof.
  intros HW HH tw th. unfold tooltipPosition.
  rewrite (NumFacts.div_nonzero qx canvasW HW).
  rewrite (NumFacts.div_nonzero qy canvasH HH).
  assert (Z : forall v d, v == 0 -> orDefault v d = d).
  { intros v d H. unfold orDefault.
    destruct (Qeq_bool v 0) eqn:E; [reflexivity|].
    apply Qeq_bool_neq in E. contradiction. }
  split; [intros ->; reflexivity|].
  split; [|split; intros H; apply Z, H].
  intros m ->. cbv zeta. fold tw th.
  destruct (tooltip_clamp (qx / canvasW * wrapW + 8) wrapW tw)
    as (X1 & X2 & X3 & X4).
  destruct (tooltip_clamp (qy / canvasH * wrapH + 8) wrapH th)
    as (Y1 & Y2 & Y3 & Y4).
  eexists. eexists. split; [reflexivity|].
  repeat split; try assumption; intros; auto.
Qed.

(** [tooltip_inside_wrapper] on a marker in the bottom right corner, with
    and without a magnitude. *)
Lemma tooltip_inside_wrapper_witness :
  (~ 800 == 0 /\ ~ 400 == 0 /\ 160 + 8 <= 1000 /\ 60 + 8 <= 500 /\
   Whole 1000 /\ Whole 500 /\ Whole 160 /\ Whole 60) /\
  tooltipPosition (30, 40) None 800 400 1000 500 0 0 790 390
  = Threw (30, 40) /\
  exists left top : Q,
    tooltipPosition (30, 40) (Some 5.5) 800 400 1000 500 0 0 790 390
    = Returned (left, top) /\
    4 <= left /\ 4 <= top /\
    left + 160 + 4 <= 1000 /\ top + 60 + 4 <= 500.
Proof.
  assert (W1 : Whole 1000) by whole 1000%Z.
  assert (W2 : Whole 500) by whole 500%Z.
  assert (W3 : Whole 160) by whole 160%Z.
  assert (W4 : Whole 60) by whole 60%Z.
  split; [repeat split; try assumption; discriminate|].
  destruct (tooltip_inside_wrapper (30, 40) None 800 400 1000 500 0 0 790 390)
    as (Thrown & _); [discriminate | discriminate |].
  destruct (tooltip_inside_wrapper (30, 40) (Some 5.5) 800 400 1000 500 0 0
              790 390) as (_ & Placed & _); [discriminate | discriminate |].
  split; [apply Thrown; reflexivity|].
  destruct (Placed 5.5 eq_refl) as (left & top & E & _ & _ & L & T & _ & _ & R & B).
  exists left, top. split; [exact E|]. split; [exact L|]. split; [exact T|].
  split; [apply R | apply B]; assumption || discriminate.
Defined.

(** ** What a frame leaves alone *)

Lemma pruned_length rs : (length (pruned rs) <= length rs)%nat.
Proof.
  unfold pruned. rewrite <- (length_map aged rs). apply filter_length_le.
Qed.

(** X17. A frame that returns never moves the map and never touches the drag
    flag; it never leaves more ripples than it found plus the one the
    throttle may have spawned, and no more than it found when the checkbox is
    off or the feed empty; the cursor advances by one exactly when the
    throttle has spawned, and then the timestamp of the frame is recorded. *)
Theorem frame_leaves_alone (pg : Page) (t : Q) (st : State) (f : Frame) :
  drawFrame pg t st = Some f ->
  mapOffsetX (f_state f) = mapOffsetX st /\
  isDragging (f_state f) = isDragging st /\
  (length (ripples (f_state f)) <= S (length (ripples st)))%nat /\
  (autoRipplesChecked pg = false \/ recentQuakes pg = [] ->
   (length (ripples (f_state f)) <= length (ripples st))%nat) /\
  ((autoRippleIndex (f_state f) = autoRippleIndex st /\
    lastAutoRippleTime (f_state f) = lastAutoRippleTime st) \/
   (autoRippleIndex (f_state f) = (autoRippleIndex st + 1)%nat /\
    lastAutoRippleTime (f_state f) = t /\
    autoRipplesChecked pg = true /\
    2000 <= t - lastAutoRippleTime st)).
Proof.
  intros Ef.
  apply drawFrame_Some in Ef as (off & st1 & _ & _ & E1 & _ & _ & ->).
  simpl. pose proof (pruned_length (ripples st1)) as EL.
  destruct (maybeSpawnAutoRipple_cases pg t st)
    as [[B E'] | (C & Q & T & q & _ & E')];
    rewrite E' in E1; injection E1 as <-.
  - repeat split; try reflexivity; try lia. left. split; reflexivity.
  - simpl in EL |- *. rewrite length_createRippleFromWorld in EL.
    repeat split; try reflexivity; try lia.
    + intros [H | H]; congruence.
    + right. repeat split; try reflexivity; assumption.
Qed.

(** [frame_leaves_alone] on a frame that spawns. *)
Lemma frame_leaves_alone_witness :
  exists f : Frame,
    drawFrame examplePage 2100 exampleState = Some f /\
    mapOffsetX (f_state f) = mapOffsetX exampleState /\
    (length (ripples (f_state f)) <= S (length (ripples exampleState)))%nat /\
    autoRippleIndex (f_state f) = 1%nat.
Proof.
  destruct (drawFrame examplePage 2100 exampleState) as [f|] eqn:Ef;
    [|vm_compute in Ef; discriminate Ef].
  exists f. split; [reflexivity|].
  destruct (frame_leaves_alone examplePage 2100 exampleState f Ef)
    as (M & _ & L & _ & _).
  split; [exact M|]. split; [exact L|].
  vm_compute in Ef. injection Ef as <-. reflexivity.
Defined.

(** ** Colours *)

Lemma parseInt16_hex2 n :
  (n < 256)%nat -> parseInt16 (hex2 n) = Some (Z.of_nat n).
Proof.
  intros H.
  assert (A : forallb (fun k => match parseInt16 (hex2 k) with
                                | Some z => (z =? Z.of_nat k)%Z
                                | None => false
                                end) (seq 0 256) = true)
    by (vm_compute; reflexivity).
  rewrite forallb_forall in A. specialize (A n).
  destruct (parseInt16 (hex2 n)) as [z|].
  - f_equal. apply Z.eqb_eq, A, in_seq. lia.
  - discriminate A. apply in_seq. lia.
Qed.

Lemma parseInt16_hexChar d :
  (d < 16)%nat ->
  parseInt16 (String (hexChar d) EmptyString) = Some (Z.of_nat d).
Proof.
  intros H. do 16 (destruct d as [|d]; [reflexivity|]). lia.
Qed.

Lemma hexChar_not_hash d :
  (d < 16)%nat -> Ascii.eqb (hexChar d) "#" = false.
Proof.
  intros H. do 16 (destruct d as [|d]; [reflexivity|]). lia.
Qed.

Lemma removeFirstHash_hex2 n s :
  (n < 256)%nat ->
  removeFirstHash (hex2 n ++ s) = (hex2 n ++ removeFirstHash s)%string.
Proof.
  intros H.
  assert (A : Ascii.eqb (hexChar (n / 16)) "#" = false)
    by (apply hexChar_not_hash, Nat.Div0.div_lt_upper_bound; lia).
  assert (B : Ascii.eqb (hexChar (n mod 16)) "#" = false)
    by (apply hexChar_not_hash, Nat.mod_upper_bound; lia).
  unfold hex2. cbn [append removeFirstHash]. rewrite A, B. reflexivity.
Qed.

(** X18. [hexToRgba] decodes: on the six digits of three values below 256,
    with or without the leading ["#"], it yields these three values and the
    alpha it was given.  It knows no short form: on ["#"] and three digits
    the green channel is the third digit alone and the blue channel is NaN.
    The two colours the engine gives its ripples decode to numbers. *)
Theorem hexToRgba_decodes (r g b d : nat) (alpha : Q) (rp : Ripple) :
  (r < 256)%nat -> (g < 256)%nat -> (b < 256)%nat -> (d < 16)%nat ->
  hexToRgba (String "#" (hex2 r ++ hex2 g ++ hex2 b)) alpha
  = mkRgba (Some (Z.of_nat r)) (Some (Z.of_nat g)) (Some (Z.of_nat b)) alpha /\
  hexToRgba (hex2 r ++ hex2 g ++ hex2 b) alpha
  = mkRgba (Some (Z.of_nat r)) (Some (Z.of_nat g)) (Some (Z.of_nat b)) alpha /\
  hexToRgba (String "#" (hex2 r ++ String (hexChar d) EmptyString)) alpha
  = mkRgba (Some (Z.of_nat r)) (Some (Z.of_nat d)) None alpha /\
  (WellBuilt rp ->
   hexToRgba (baseColor rp) (opacity rp)
   = if fromAuto rp
     then mkRgba (Some 74%Z) (Some 222%Z) (Some 128%Z) (opacity rp)
     else mkRgba (Some 34%Z) (Some 211%Z) (Some 238%Z) (opacity rp)).
Proof.
  intros Hr Hg Hb Hd.
  assert (S : forall s,
             hexToRgba (String "#" s) alpha
             = mkRgba (parseInt16 (slice 0 2 s)) (parseInt16 (slice 2 4 s))
                      (parseInt16 (slice 4 6 s)) alpha) by reflexivity.
  assert (P : forall n, (n < 256)%nat ->
                        parseInt16 (String (hexChar (n / 16))
                                      (String (hexChar (n mod 16)) EmptyString))
                        = Some (Z.of_nat n))
    by (intros n H; apply (parseInt16_hex2 n H)).
  repeat apply conj.
  - rewrite S. unfold hex2, slice. cbn [append substring Nat.sub].
    rewrite !P by assumption. reflexivity.
  - unfold hexToRgba.
    rewrite !removeFirstHash_hex2 by assumption.
    replace (removeFirstHash (hex2 b)) with (hex2 b).
    + unfold hex2, slice. cbn [append substring Nat.sub].
      rewrite !P by assumption. reflexivity.
    + pose proof (removeFirstHash_hex2 b EmptyString Hb) as E.
      unfold hex2 in *. cbn [append removeFirstHash] in *.
      symmetry. exact E.
  - rewrite S. unfold hex2, slice. cbn [append substring Nat.sub].
    rewrite (P r Hr), (parseInt16_hexChar d Hd). reflexivity.
  - intros (_ & _ & _ & _ & C). rewrite C.
    destruct (fromAuto rp); reflexivity.
Qed.

(** [hexToRgba_decodes] on the two colours of the engine and on a short form. *)
Lemma hexToRgba_decodes_witness :
  ((74 < 256)%nat /\ (222 < 256)%nat /\ (128 < 256)%nat /\ (10 < 16)%nat /\
   WellBuilt (mkRipple 10 20 0 80 1 2 "#22d3ee" 1 false)) /\
  hexToRgba "#4ade80" 1
  = mkRgba (Some 74%Z) (Some 222%Z) (Some 128%Z) 1 /\
  hexToRgba "#4aa" 1 = mkRgba (Some 74%Z) (Some 10%Z) None 1 /\
  hexToRgba "#22d3ee" 1
  = mkRgba (Some 34%Z) (Some 211%Z) (Some 238%Z) 1.
Proof.
  assert (W : WellBuilt (mkRipple 10 20 0 80 1 2 "#22d3ee" 1 false))
    by (repeat split; discriminate).
  assert (L1 : (74 < 256)%nat) by lia.
  assert (L2 : (222 < 256)%nat) by lia.
  assert (L3 : (128 < 256)%nat) by lia.
  assert (L4 : (10 < 16)%nat) by lia.
  destruct (hexToRgba_decodes 74 222 128 10 1
              (mkRipple 10 20 0 80 1 2 "#22d3ee" 1 false) L1 L2 L3 L4)
    as (Full & _ & Short & Stored).
  split; [repeat split; assumption || apply W|].
  split; [exact Full|]. split; [exact Short | apply Stored, W].
Defined.

(** ** The rate of automatic ripples *)

Lemma inject_nat_succ n :
  inject_Z (Z.of_nat (S n)) == inject_Z (Z.of_nat n) + 1.
Proof.
  rewrite Nat2Z.inj_succ. unfold Z.succ. rewrite inject_Z_plus. reflexivity.
Qed.

Lemma spawnLog_times calls (T : Q) :
  forall st,
    Forall (fun c => snd c <= T) calls ->
    Forall (fun e => fst e <= T) (spawnLog calls st).
Proof.
  induction calls as [|[pg t] calls IH]; intros st H.
  - constructor.
  - rewrite Forall_cons in H. destruct H as [Ht H]. simpl in Ht.
    rewrite spawnLog_step.
    destruct (maybeSpawnAutoRipple pg t st) as [st'|]; [|constructor].
    apply Forall_app. split; [|apply IH, H].
    destruct (_ =? _)%nat; [|constructor].
    apply Forall_singleton. exact Ht.
Qed.

Lemma Spaced_count log :
  forall from T,
    Spaced from log -> Forall (fun e => fst e <= T) log -> log <> [] ->
    from + inject_Z (Z.of_nat (length log)) * AUTO_RIPPLE_INTERVAL <= T.
Proof.
  induction log as [|[t c] log IH]; intros from T S F N; [congruence|].
  destruct S as [S0 S]. rewrite Forall_cons in F. destruct F as [Ft F].
  simpl in Ft. simpl length. rewrite inject_nat_succ.
  destruct log as [|e log'].
  - change (inject_Z (Z.of_nat (length []))) with 0. lra.
  - pose proof (IH t T S F ltac:(discriminate)) as B. lra.
Qed.

(** X19. The throttle bounds the number of automatic ripples by the time
    elapsed: from a throttle state with no spawn yet, or a last spawn at a
    timestamp of at least 2000, if a sequence of calls, all with timestamps up
    to [T], spawns [n >= 1] times, then [n * 2000 <= T - lastAutoRippleTime];
    the sequence returns, the store has grown by exactly [n], and the
    throttle state it leaves is of the same kind. *)
Theorem auto_ripples_rate
    (calls : list (Page * Q)) (st : State) (T : Q) :
  lastAutoRippleTime st == 0 \/ 2000 <= lastAutoRippleTime st ->
  Forall (fun c => snd c <= T) calls ->
  exists (st' : State) (n : nat),
    autoRun calls st = Some st' /\
    length (ripples st') = (length (ripples st) + n)%nat /\
    n = length (spawnLog calls st) /\
    ((1 <= n)%nat ->
     inject_Z (Z.of_nat n) * 2000 <= T - lastAutoRippleTime st) /\
    (lastAutoRippleTime st' == 0 \/ 2000 <= lastAutoRippleTime st').
Proof.
  intros HT H.
  destruct (autoRun_total calls st) as (st' & R & L & _).
  exists st', (length (spawnLog calls st)).
  split; [exact R|]. split; [exact L|]. split; [reflexivity|].
  split; [|exact (autoRun_Throttled calls st st' HT R)].
  intros N.
  pose proof (Spaced_count (spawnLog calls st) (lastAutoRippleTime st) T
                (proj1 (spawnLog_spaced calls st))
                (spawnLog_times calls T st H)) as B.
  change 2000 with AUTO_RIPPLE_INTERVAL.
  assert (NE : spawnLog calls st <> [])
    by (destruct (spawnLog calls st); [simpl in N; lia | discriminate]).
  specialize (B NE). lra.
Qed.

(** [auto_ripples_rate] on [exampleTicks]: two spawns by the time 4300. *)
Lemma auto_ripples_rate_witness :
  (lastAutoRippleTime initialState == 0 /\
   Forall (fun c => snd c <= 4300) exampleTicks) /\
  exists (st' : State) (n : nat),
    autoRun exampleTicks initialState = Some st' /\
    length (ripples st') = (length (ripples initialState) + n)%nat /\
    n = 2%nat /\
    inject_Z (Z.of_nat n) * 2000 <= 4300 - lastAutoRippleTime initialState.
Proof.
  assert (H : Forall (fun c => snd c <= 4300) exampleTicks)
    by (repeat constructor; discriminate).
  split; [split; [reflexivity | exact H]|].
  destruct (auto_ripples_rate exampleTicks initialState 4300
              (or_introl (Qeq_refl 0)) H)
    as (st' & n & R & L & E & B & _).
  exists st', n. split; [exact R|]. split; [exact L|].
  assert (E2 : n = 2%nat) by (rewrite E; reflexivity).
  split; [exact E2|]. apply B. rewrite E2. lia.
Defined.
